(** * Regex Roulette: a shallow embedding of [regex_roulette.py]

    The script tests a user-supplied regular expression against a fixed
    catalog of ten edge cases.  For each case the verdict of the user's
    pattern ([compiled.fullmatch]) is compared with the verdict of the
    case's own reference pattern ([re.fullmatch]); the number of agreeing
    cases divided by the number of cases is the score.

    The development has three layers:

    - [Sre]: the part of Python's [re] module the script relies on
      (pattern syntax, compilation errors, full-match verdicts), for a
      documented fragment of the pattern language;
    - the script itself: [generate_edge_cases], the loop of
      [test_pattern], the score and the feedback tiers, with printing,
      exceptions and the random shuffle as explicit state;
    - the properties of the script. *)

From Stdlib Require Import Ascii String.
From Stdlib Require Import List NArith ZArith QArith Bool Arith Lia Permutation.
Import ListNotations.

Local Open Scope nat_scope.

(** ** Python strings *)

(** A Python [str] is a sequence of Unicode code points. *)
Definition str := list N.

(** [u lit] is the [str] of an ASCII literal: one code point per
    character. *)
Definition u (lit : string) : str :=
  map N_of_ascii (list_ascii_of_string lit).

(** [c * n] for a one-character string [c]. *)
Definition str_repeat (c : N) (n : nat) : str := repeat c n.

Definition str_eqb (a b : str) : bool :=
  if list_eq_dec N.eq_dec a b then true else false.

(** ** The Unicode database

    For Unicode patterns [\d], [\s] and [\w] consult the Unicode
    character database.  Its ASCII part is written out below; the three
    predicates on the other code points are a parameter of the model. *)
Record unicode_db := {
  uni_isdecimal : N -> bool;
  uni_isspace : N -> bool;
  uni_isalnum : N -> bool
}.

(** ** The regular expression engine

    [re.compile], [re.fullmatch] and [Pattern.fullmatch] belong to the
    Python library, not to the script.  [Sre] follows CPython's parser
    ([Lib/re/_parser.py]) and matcher for Unicode patterns compiled
    without flags. *)
Module Sre.

(** *** Parsed patterns *)

(** [MAXREPEAT] of a 64-bit CPython build; as an upper bound it stands
    for "no upper bound". *)
Definition MAXREPEAT : N := 4294967295%N.

Inductive category :=
| CATEGORY_DIGIT | CATEGORY_NOT_DIGIT
| CATEGORY_SPACE | CATEGORY_NOT_SPACE
| CATEGORY_WORD | CATEGORY_NOT_WORD.

Inductive at_code :=
| AT_BEGINNING          (* ^ *)
| AT_END                (* $ *)
| AT_BEGINNING_STRING   (* \A *)
| AT_END_STRING.        (* \Z *)

(** The parse tree.  A sequence of items is a chain of [Seq] ending in
    [Empty]; an alternation is a chain of [Branch].  [Repeat lazy lo hi]
    covers MAX_REPEAT ([lazy = false]) and MIN_REPEAT ([lazy = true]). *)
Inductive re :=
| Empty
| Literal (c : N)
| Any
| In (k : category)
| At (a : at_code)
| Subpattern (r : re)
| Seq (r1 r2 : re)
| Branch (r1 r2 : re)
| Repeat (lazy : bool) (lo hi : N) (r : re).

(** *** Compilation errors *)

(** The message of an [re.error], without the position that [str(e)]
    appends to it. *)
Inductive diagnostic :=
| missing_paren                        (* missing ), unterminated subpattern *)
| unbalanced_parenthesis               (* unbalanced parenthesis *)
| nothing_to_repeat                    (* nothing to repeat *)
| multiple_repeat                      (* multiple repeat *)
| min_repeat_greater_than_max_repeat   (* min repeat greater than max repeat *)
| bad_escape (c : N)                   (* bad escape \c *)
| bad_escape_end                       (* bad escape (end of pattern) *)
| other_message (msg : str).

(** The exceptions of the model.  [re_error] is the class the script
    catches. *)
Inductive exn :=
| re_error (msg : diagnostic)
| OverflowError                        (* the repetition number is too large *)
| ZeroDivisionError
| BaseException (name : str).

(** *** The parser

    The fragment: literals, [.], [^], [$], the escapes [\d \D \s \S \w
    \W \A \Z \a \f \n \r \t \v], escaped punctuation, groups [(...)] and
    [(?:...)], alternation and the repeats [* + ? {m} {m,} {,n} {m,n}],
    greedy or lazy.  Character sets, the other [(?...)] extensions,
    word boundaries, back-references, numeric and named escapes,
    possessive repeats and groups nested deeper than [MAXNEST] are
    [Unmodelled]. *)
Inductive parsed :=
| Parsed (r : re)
| Fails (e : exn)
| Unmodelled.

(** Deeper nesting may exhaust the interpreter's recursion limit, and
    longer numerals its limit on integer conversion; both are left out
    of the fragment. *)
Definition MAXNEST : nat := 100.
Definition MAXDIGITS : nat := 640.

(** The sequence being built, latest item first, and the alternatives
    already closed by a [|], latest first. *)
Record frame := { alts : list re; items : list re }.

Definition empty_frame : frame := {| alts := []; items := [] |}.

Definition push_item (it : re) (f : frame) : frame :=
  {| alts := alts f; items := it :: items f |}.

Definition seq_of (its : list re) : re :=
  fold_left (fun acc it => Seq it acc) its Empty.

Definition close_frame (f : frame) : re :=
  fold_left (fun acc a => Branch a acc) (alts f) (seq_of (items f)).

Definition next_alternative (f : frame) : frame :=
  {| alts := seq_of (items f) :: alts f; items := [] |}.

Definition is_digit (c : N) : bool := (48 <=? c)%N && (c <=? 57)%N.

Definition is_ascii_letter (c : N) : bool :=
  ((65 <=? c)%N && (c <=? 90)%N) || ((97 <=? c)%N && (c <=? 122)%N).

Fixpoint take_digits (p : str) : str * str :=
  match p with
  | c :: q =>
      if is_digit c
      then let (d, r) := take_digits q in (c :: d, r)
      else ([], p)
  | [] => ([], [])
  end.

Definition int_of_digits (d : str) : N :=
  fold_left (fun acc c => (acc * 10 + (c - 48))%N) d 0%N.

(** After a [{]: the digits of the minimum, those of the maximum and
    what follows the closing [}], when this is a repeat. *)
Definition scan_braces (rest : str) : option (str * str * str) :=
  match rest with
  | 125%N :: _ => None
  | _ =>
      let (lo, r1) := take_digits rest in
      let (hi, r2) :=
        match r1 with
        | 44%N :: r1' => take_digits r1'
        | _ => (lo, r1)
        end in
      match r2 with
      | 125%N :: r3 => Some (lo, hi, r3)
      | _ => None
      end
  end.

(** The item a [\] and the next character stand for. *)
Definition escape (c : N) : parsed :=
  match c with
  | 100%N => Parsed (In CATEGORY_DIGIT)
  | 68%N => Parsed (In CATEGORY_NOT_DIGIT)
  | 115%N => Parsed (In CATEGORY_SPACE)
  | 83%N => Parsed (In CATEGORY_NOT_SPACE)
  | 119%N => Parsed (In CATEGORY_WORD)
  | 87%N => Parsed (In CATEGORY_NOT_WORD)
  | 65%N => Parsed (At AT_BEGINNING_STRING)
  | 90%N => Parsed (At AT_END_STRING)
  | 97%N => Parsed (Literal 7)
  | 102%N => Parsed (Literal 12)
  | 110%N => Parsed (Literal 10)
  | 114%N => Parsed (Literal 13)
  | 116%N => Parsed (Literal 9)
  | 118%N => Parsed (Literal 11)
  | 98%N | 66%N => Unmodelled                      (* \b \B *)
  | 120%N | 117%N | 85%N | 78%N => Unmodelled      (* \x \u \U \N *)
  | 122%N => Unmodelled                            (* \z *)
  | _ =>
      if is_digit c then Unmodelled
      else if is_ascii_letter c then Fails (re_error (bad_escape c))
      else Parsed (Literal c)
  end.

(** Repeat the latest item of [f] between [lo] and [hi] times; [rest]
    follows the repeat operator.  The result is the new frame and how
    many characters of [rest] belong to the operator. *)
Definition repeat_item (lo hi : N) (rest : str) (f : frame)
  : option (exn + frame * nat) :=
  match items f with
  | [] | At _ :: _ => Some (inl (re_error nothing_to_repeat))
  | Repeat _ _ _ _ :: _ => Some (inl (re_error multiple_repeat))
  | it :: its =>
      match rest with
      | 63%N :: _ =>
          Some (inr ({| alts := alts f; items := Repeat true lo hi it :: its |}, 1))
      | 43%N :: _ => None
      | _ =>
          Some (inr ({| alts := alts f; items := Repeat false lo hi it :: its |}, 0))
      end
  end.

(** The bounds of a [{lo,hi}] repeat. *)
Definition bounds (lo hi : str) : option (exn + N * N) :=
  if (MAXDIGITS <? length lo) || (MAXDIGITS <? length hi) then None
  else
    let min := int_of_digits lo in
    let max := match hi with [] => MAXREPEAT | _ => int_of_digits hi end in
    if (MAXREPEAT <=? min)%N then Some (inl OverflowError)
    else match hi with
         | [] => Some (inr (min, max))
         | _ =>
             if (MAXREPEAT <=? max)%N then Some (inl OverflowError)
             else if (max <? min)%N
                  then Some (inl (re_error min_repeat_greater_than_max_repeat))
                  else Some (inr (min, max))
         end.

Definition lone_backslash (p : str) : bool :=
  match p with
  | [92%N] => true
  | _ => false
  end.

(** One pass over the pattern.  [skip] characters have already been read
    as part of the previous token; [stack] holds the frames of the
    enclosing groups.  The tokenizer reads one token ahead, so that a
    lone [\] at the end of the pattern is reported as soon as the token
    before it is consumed. *)
Fixpoint parse_loop (p : str) (skip : nat) (stack : list frame) (cur : frame)
  : parsed :=
  match p with
  | [] =>
      match stack with
      | [] => Parsed (close_frame cur)
      | _ :: _ => Fails (re_error missing_paren)
      end
  | c :: rest =>
      match skip with
      | S skip' =>
          if lone_backslash rest then Fails (re_error bad_escape_end)
          else parse_loop rest skip' stack cur
      | O =>
          let continue := parse_loop rest in
          let repeat_with lo hi after extra :=
            match repeat_item lo hi after cur with
            | None => Unmodelled
            | Some (inl e) => Fails e
            | Some (inr (cur', n)) => continue (extra + n) stack cur'
            end in
          match c, stack with
          | 41%N, [] => Fails (re_error unbalanced_parenthesis)
          | 92%N, _ =>
              match rest with
              | [] => Fails (re_error bad_escape_end)
              | e :: rest' =>
                  if lone_backslash rest' then Fails (re_error bad_escape_end)
                  else match escape e with
                       | Parsed it => continue 1 stack (push_item it cur)
                       | other => other
                       end
              end
          | _, _ =>
              if lone_backslash rest then Fails (re_error bad_escape_end)
              else
                match c, stack with
                | 46%N, _ => continue 0 stack (push_item Any cur)
                | 94%N, _ => continue 0 stack (push_item (At AT_BEGINNING) cur)
                | 36%N, _ => continue 0 stack (push_item (At AT_END) cur)
                | 124%N, _ => continue 0 stack (next_alternative cur)
                | 40%N, _ =>
                    if MAXNEST <=? length stack then Unmodelled
                    else match rest with
                         | 63%N :: 58%N :: _ => continue 2 (cur :: stack) empty_frame
                         | 63%N :: _ => Unmodelled
                         | _ => continue 0 (cur :: stack) empty_frame
                         end
                | 41%N, outer :: stack' =>
                    continue 0 stack' (push_item (Subpattern (close_frame cur)) outer)
                | 91%N, _ => Unmodelled
                | 42%N, _ => repeat_with 0%N MAXREPEAT rest 0
                | 43%N, _ => repeat_with 1%N MAXREPEAT rest 0
                | 63%N, _ => repeat_with 0%N 1%N rest 0
                | 123%N, _ =>
                    match scan_braces rest with
                    | None => continue 0 stack (push_item (Literal c) cur)
                    | Some (lo, hi, after) =>
                        if lone_backslash after then Fails (re_error bad_escape_end)
                        else match bounds lo hi with
                             | None => Unmodelled
                             | Some (inl e) => Fails e
                             | Some (inr (min, max)) =>
                                 repeat_with min max after (length rest - length after)
                             end
                    end
                | _, _ => continue 0 stack (push_item (Literal c) cur)
                end
          end
      end
  end.

(** [sre_parse.parse(pattern)] followed by code generation, which cannot
    fail on the fragment. *)
Definition parse (p : str) : parsed := parse_loop p 0 [] empty_frame.

(** *** Character tests *)

Section Matching.

Variable db : unicode_db.

Definition isdecimal (c : N) : bool :=
  if (c <? 128)%N then (48 <=? c)%N && (c <=? 57)%N else uni_isdecimal db c.

(** ASCII white space: TAB, LF, VT, FF, CR, the four separators
    0x1C-0x1F and the space. *)
Definition isspace (c : N) : bool :=
  if (c <? 128)%N
  then ((9 <=? c)%N && (c <=? 13)%N) || ((28 <=? c)%N && (c <=? 32)%N)
  else uni_isspace db c.

Definition isalnum (c : N) : bool :=
  if (c <? 128)%N
  then ((48 <=? c)%N && (c <=? 57)%N)
       || ((65 <=? c)%N && (c <=? 90)%N)
       || ((97 <=? c)%N && (c <=? 122)%N)
  else uni_isalnum db c.

Definition isword (c : N) : bool := isalnum c || (c =? 95)%N.

Definition category_test (k : category) (c : N) : bool :=
  match k with
  | CATEGORY_DIGIT => isdecimal c
  | CATEGORY_NOT_DIGIT => negb (isdecimal c)
  | CATEGORY_SPACE => isspace c
  | CATEGORY_NOT_SPACE => negb (isspace c)
  | CATEGORY_WORD => isword c
  | CATEGORY_NOT_WORD => negb (isword c)
  end.

(** *** The matcher *)

(** The zero-width assertions.  Without MULTILINE [^] holds at the start
    of the string only, and [$] at its end or before a final line feed. *)
Definition at_test (s : str) (a : at_code) (i : nat) : bool :=
  match a with
  | AT_BEGINNING | AT_BEGINNING_STRING => i =? 0
  | AT_END =>
      (i =? length s)
      || ((S i =? length s)
          && match nth_error s i with Some c => (c =? 10)%N | None => false end)
  | AT_END_STRING => i =? length s
  end.

(** How many further rounds a repeat may still make once its minimum is
    reached: [None] when [hi] is [MAXREPEAT] (no upper bound). *)
Definition budget (lo hi : N) : option N :=
  if (hi =? MAXREPEAT)%N then None else Some (hi - lo)%N.

Definition can_more (b : option N) : bool :=
  match b with
  | None => true
  | Some n => (0 <? n)%N
  end.

Definition less (b : option N) : option N :=
  match b with
  | None => None
  | Some n => Some (N.pred n)
  end.

Section Loops.
(** [body i k]: match the repeated item at [i] and continue with [k]
    at every position where it can end. *)
Variable body : nat -> (nat -> bool) -> bool.

(** The minimum is reached: stop here, or match once more.  As in the
    engine, a further round must consume input, so [fuel] rounds are
    enough when [fuel] is the length of the string. *)
Fixpoint until (k : nat -> bool) (fuel : nat) (b : option N) (i : nat) : bool :=
  if k i then true
  else match fuel with
       | O => false
       | S fuel' =>
           if can_more b
           then body i (fun j => if i <? j then until k fuel' (less b) j else false)
           else false
       end.

(** [p] compulsory rounds, by the binary digits of [p]. *)
Fixpoint rounds_pos (p : positive) (k : nat -> bool) (i : nat) : bool :=
  match p with
  | xH => body i k
  | xO q => rounds_pos q (fun j => rounds_pos q k j) i
  | xI q => body i (fun j => rounds_pos q (fun j' => rounds_pos q k j') j)
  end.

Definition rounds (n : N) (k : nat -> bool) (i : nat) : bool :=
  match n with
  | N0 => k i
  | Npos p => rounds_pos p k i
  end.

(** Between [lo] and [hi] rounds. *)
Definition repeat_loop (fuel : nat) (lo hi : N) (k : nat -> bool) (i : nat) : bool :=
  if negb (hi =? MAXREPEAT)%N && (hi <? lo)%N then false
  else rounds lo (fun j => until k fuel (budget lo hi) j) i.
End Loops.

(** A one-character item; [.] is every character but the line feed (no
    DOTALL flag). *)
Definition one_char (s : str) (test : N -> bool) (i : nat) (k : nat -> bool) : bool :=
  match nth_error s i with
  | Some c => if test c then k (S i) else false
  | None => false
  end.

(** [m s r i k]: backtracking match of [r] in [s] from position [i];
    [k] is what remains to be matched, given the position where [r]
    ended.  Greedy and lazy repeats try the same ends in a different
    order, so the verdict does not depend on [lazy]. *)
Fixpoint m (s : str) (r : re) (i : nat) (k : nat -> bool) : bool :=
  match r with
  | Empty => k i
  | Literal c => one_char s (N.eqb c) i k
  | Any => one_char s (fun c => negb (c =? 10)%N) i k
  | In cat => one_char s (category_test cat) i k
  | At a => if at_test s a i then k i else false
  | Subpattern r1 => m s r1 i k
  | Seq r1 r2 => m s r1 i (fun j => m s r2 j k)
  | Branch r1 r2 => if m s r1 i k then true else m s r2 i k
  | Repeat _ lo hi r1 => repeat_loop (m s r1) (length s) lo hi k i
  end.

(** [Pattern.fullmatch(s) is not None]: the match must start at 0 and
    end at the end of [s]. *)
Definition fullmatch (r : re) (s : str) : bool :=
  m s r 0 (fun j => j =? length s).

(** [Pattern.match(s) is not None]: a match starting at 0, ending
    anywhere. *)
Definition match_ (r : re) (s : str) : bool :=
  m s r 0 (fun _ => true).

(** [Pattern.search(s) is not None]: a match starting anywhere.  The
    script never calls it; it is here to compare with [fullmatch]. *)
Definition search (r : re) (s : str) : bool :=
  existsb (fun i => m s r i (fun _ => true)) (seq 0 (S (length s))).

(** *** What a match is *)

(** [iter R n i j]: [n] consecutive [R]-steps lead from [i] to [j]. *)
Fixpoint iter (R : nat -> nat -> Prop) (n : nat) (i j : nat) : Prop :=
  match n with
  | O => i = j
  | S n' => exists x, R i x /\ iter R n' x j
  end.

Definition within (lo hi : N) (n : nat) : Prop :=
  N.to_nat lo <= n /\ (hi = MAXREPEAT \/ n <= N.to_nat hi).

(** [spans s r i j]: the pattern [r] matches the slice [s[i:j]] of [s],
    the anchors seeing all of [s]. *)
Fixpoint spans (s : str) (r : re) (i j : nat) : Prop :=
  match r with
  | Empty => i = j
  | Literal c => nth_error s i = Some c /\ j = S i
  | Any => exists c, nth_error s i = Some c /\ c <> 10%N /\ j = S i
  | In cat => exists c, nth_error s i = Some c /\ category_test cat c = true /\ j = S i
  | At a => at_test s a i = true /\ i = j
  | Subpattern r1 => spans s r1 i j
  | Seq r1 r2 => exists x, spans s r1 i x /\ spans s r2 x j
  | Branch r1 r2 => spans s r1 i j \/ spans s r2 i j
  | Repeat _ lo hi r1 => exists n, within lo hi n /\ iter (spans s r1) n i j
  end.

End Matching.

End Sre.

(** ** The [re] module as the script uses it *)

Inductive outcome (A : Type) :=
| Return (a : A)
| Raise (e : Sre.exn).

Arguments Return {A} a.
Arguments Raise {A} e.

(** What the model takes from the Python runtime as a parameter: the
    Unicode database beyond ASCII and, for the patterns outside the
    fragment of [Sre], their compilation and their matcher.
    [ends_unmodelled o s i] lists the positions at which the engine,
    started at position [i] of [s], can end a match of [o]. *)
Record engine := {
  unicode : unicode_db;
  opaque : Type;
  compile_unmodelled : str -> outcome opaque;
  ends_unmodelled : opaque -> str -> nat -> list nat
}.

(** ** Printing, randomness, the heap, exceptions *)

Definition edge_case : Type := str * str * str.

(** One constructor per [print] of [test_pattern], with the values it
    interpolates. *)
Inductive event :=
| testing_pattern (pattern : str)
| spinning
| syntax_error (e : Sre.diagnostic)
| doesnt_compile
| case_passed (description : str)
| case_failed (description : str)
| show_test (shown : str)
| show_expected (should_match : bool)
| show_got (actual_match : bool)
| show_score (passed total : nat) (score : Q)
| perfect
| not_terrible
| room_for_improvement
| oof.

(** The state of the process: what was printed so far, the random
    generator as the sequence of numbers it is going to produce, and
    the list objects allocated so far.  A list object is known by its
    index in [heap]. *)
Record world := {
  stdout : list event;
  rng : nat -> nat;
  drawn : nat;
  heap : list (list edge_case)
}.

Definition M (A : Type) : Type := world -> outcome A * world.

Definition ret {A} (a : A) : M A := fun w => (Return a, w).

Definition raise {A} (e : Sre.exn) : M A := fun w => (Raise e, w).

Definition bind {A B} (c : M A) (f : A -> M B) : M B :=
  fun w =>
    match c w with
    | (Return a, w') => f a w'
    | (Raise e, w') => (Raise e, w')
    end.

Definition lift {A} (o : outcome A) : M A := fun w => (o, w).

Notation "x <- c ;; f" := (bind c (fun x => f))
  (at level 61, c at next level, right associativity).
Notation "c ;;; f" := (bind c (fun _ => f))
  (at level 61, right associativity).

Definition print (e : event) : M unit :=
  fun w => (Return tt,
            {| stdout := stdout w ++ [e]; rng := rng w; drawn := drawn w;
               heap := heap w |}).

(** [random._randbelow(n)], for [n > 0]: some number below [n]. *)
Definition randbelow (n : nat) : M nat :=
  fun w => (Return (rng w (drawn w) mod n),
            {| stdout := stdout w; rng := rng w; drawn := S (drawn w);
               heap := heap w |}).

(** [x[i] = v] within range. *)
Fixpoint set_nth {A} (i : nat) (v : A) (x : list A) : list A :=
  match x, i with
  | [], _ => []
  | _ :: x', O => v :: x'
  | a :: x', S i' => a :: set_nth i' v x'
  end.

(** A list display: a new list object. *)
Definition new_list (x : list edge_case) : M nat :=
  fun w => (Return (length (heap w)),
            {| stdout := stdout w; rng := rng w; drawn := drawn w;
               heap := heap w ++ [x] |}).

Definition load (r : nat) : M (list edge_case) :=
  fun w => (Return (nth r (heap w) []), w).

Definition store (r : nat) (x : list edge_case) : M unit :=
  fun w => (Return tt,
            {| stdout := stdout w; rng := rng w; drawn := drawn w;
               heap := set_nth r x (heap w) |}).

(** [len(x)] *)
Definition len (r : nat) : M nat := x <- load r ;; ret (length x).

(** [x[i], x[j] = x[j], x[i]] *)
Definition swap {A} (i j : nat) (x : list A) : list A :=
  match nth_error x j, nth_error x i with
  | Some xj, Some xi => set_nth j xi (set_nth i xj x)
  | _, _ => x
  end.

(** [random.shuffle(x)]: for [i] from [len(x) - 1] down to 1, swap
    [x[i]] with [x[j]] for a random [j <= i], in place. *)
Fixpoint shuffle_from (i : nat) (r : nat) : M unit :=
  match i with
  | O => ret tt
  | S i' =>
      j <- randbelow (S i) ;;
      x <- load r ;;
      store r (swap i j x) ;;;
      shuffle_from i' r
  end.

Definition shuffle (r : nat) : M unit :=
  n <- len r ;;
  shuffle_from (n - 1) r.

(** ** The catalog *)

(** [s * n] *)
Definition str_mul (s : str) (n : nat) : str := concat (repeat s n).

(** The ten tuples (test_string, should_match, description). *)
Definition catalog : list edge_case :=
  [ (u "hello world", u "hello\s+world",
     u "Basic sanity check (you'll fail this)");
    (u "hello" ++ [10%N] ++ u "world", u "hello.world",
     u ". doesn't match newline (surprise!");
    (u "foo bar baz", u "foo.*baz", u "Greedy vs non-greedy? Who knows!");
    (u "123-456-7890", u "\d{3}-\d{3}-\d{4}",
     u "Phone number (works until international)");
    (u "user@example.com", u "\w+@\w+\.\w+",
     u "Email (ignores 99% of real emails)");
    ([], u "^.*$", u "Empty string (your regex's existential crisis)");
    (str_mul (u "a") 1000, u "a{5,10}",
     u "Long strings: where greed goes to die");
    (u "caf" ++ [233%N], u "cafe",
     u "Unicode: because bytes have feelings too");
    (u "  spaces  ", u "^spaces$", u "Whitespace: the silent regex killer");
    (u "price: $19.99", u "\$\d+",
     u "Special chars escaping (did you remember?)") ].

(** The function returns a new list of the ten tuples on every call. *)
Definition generate_edge_cases : M nat := new_list catalog.

(** ** [test_pattern] *)

Section Script.

Variable E : engine.

(** A compiled pattern object. *)
Inductive Pattern :=
| Modelled (r : Sre.re)
| Unmodelled (o : opaque E).

(** [re.compile(pattern)] *)
Definition re_compile (pattern : str) : outcome Pattern :=
  match Sre.parse pattern with
  | Sre.Parsed r => Return (Modelled r)
  | Sre.Fails e => Raise e
  | Sre.Unmodelled =>
      match compile_unmodelled E pattern with
      | Return o => Return (Unmodelled o)
      | Raise e => Raise e
      end
  end.

(** [bool(compiled.fullmatch(string))]: the matcher runs from position
    0 and only a match that ends at the end of [string] counts. *)
Definition Pattern_fullmatch (compiled : Pattern) (string : str) : bool :=
  match compiled with
  | Modelled r => Sre.fullmatch (unicode E) r string
  | Unmodelled o => existsb (Nat.eqb (length string)) (ends_unmodelled E o string 0)
  end.

(** [bool(compiled.search(string))]: a match from any position to any
    position.  The script never calls it; it is here to compare with
    [Pattern_fullmatch]. *)
Definition Pattern_search (compiled : Pattern) (string : str) : bool :=
  match compiled with
  | Modelled r => Sre.search (unicode E) r string
  | Unmodelled o =>
      existsb (fun i => negb (length (ends_unmodelled E o string i) =? 0))
              (seq 0 (S (length string)))
  end.

(** [Pattern_spans compiled s i j]: the compiled pattern matches the
    slice [s[i:j]] of [s]. *)
Definition Pattern_spans (compiled : Pattern) (s : str) (i j : nat) : Prop :=
  match compiled with
  | Modelled r => Sre.spans (unicode E) s r i j
  | Unmodelled o => In j (ends_unmodelled E o s i)
  end.

(** [bool(re.fullmatch(pattern, string))]: the module-level function
    compiles its pattern first. *)
Definition re_fullmatch (pattern string : str) : outcome bool :=
  match re_compile pattern with
  | Return compiled => Return (Pattern_fullmatch compiled string)
  | Raise e => Raise e
  end.

(** The verdicts of one round of the loop: [should_match], computed
    with the reference pattern of the case, and [actual_match], with
    the user's pattern. *)
Definition verdicts (compiled : Pattern) (c : edge_case) : outcome (bool * bool) :=
  let '(test_str, expected_pattern, _) := c in
  match re_fullmatch expected_pattern test_str with
  | Return should_match => Return (should_match, Pattern_fullmatch compiled test_str)
  | Raise e => Raise e
  end.

(** [test_str[:50]] followed by [...] when something was cut. *)
Definition shown (test_str : str) : str :=
  firstn 50 test_str ++ (if 50 <? length test_str then u "..." else []).

(** The [for] loop over the elements of the list; [passed] is the
    counter. *)
Fixpoint for_cases (compiled : Pattern) (verbose : bool)
    (cases : list edge_case) (passed : nat) : M nat :=
  match cases with
  | [] => ret passed
  | (test_str, expected_pattern, description) :: rest =>
      v <- lift (verdicts compiled (test_str, expected_pattern, description)) ;;
      let '(should_match, actual_match) := v in
      if Bool.eqb actual_match should_match
      then (if verbose then print (case_passed description) else ret tt) ;;;
           for_cases compiled verbose rest (S passed)
      else print (case_failed description) ;;;
           print (show_test (shown test_str)) ;;;
           print (show_expected should_match) ;;;
           print (show_got actual_match) ;;;
           for_cases compiled verbose rest passed
  end.

(** [passed / total].  The quotient is a float in the script and the
    exact rational here; the comparisons of [feedback] give the same
    answers on both for the totals the script meets. *)
Definition divide (passed total : nat) : M Q :=
  match total with
  | O => raise Sre.ZeroDivisionError
  | S _ => ret (Z.of_nat passed # Pos.of_nat total)
  end.

Definition Qgt_bool (a b : Q) : bool := negb (Qle_bool a b).

Definition feedback (score : Q) : M unit :=
  if Qeq_bool score 1 then print perfect
  else if Qgt_bool score (7 # 10) then print not_terrible
  else if Qgt_bool score (3 # 10) then print room_for_improvement
  else print oof.

(** What [test_pattern] does once the pattern is compiled. *)
Definition spin (compiled : Pattern) (verbose : bool) : M unit :=
  cases <- generate_edge_cases ;;
  shuffle cases ;;;
  x <- load cases ;;
  passed <- for_cases compiled verbose x 0 ;;
  total <- len cases ;;
  score <- divide passed total ;;
  print (show_score passed total score) ;;;
  feedback score.

Definition test_pattern (pattern : str) (verbose : bool) : M unit :=
  print (testing_pattern pattern) ;;;
  print spinning ;;;
  match re_compile pattern with
  | Raise (Sre.re_error e) =>
      print (syntax_error e) ;;;
      print doesnt_compile
  | Raise e => raise e
  | Return compiled => spin compiled verbose
  end.

(** The condition of the [if] in the loop: the two verdicts are
    equal. *)
Definition agree (compiled : Pattern) (c : edge_case) : bool :=
  match verdicts compiled c with
  | Return (should_match, actual_match) => Bool.eqb actual_match should_match
  | Raise _ => false
  end.

(** *** What a run shows *)

(** What one round of the loop prints. *)
Definition round_events (compiled : Pattern) (verbose : bool) (c : edge_case)
  : list event :=
  let '(test_str, _, description) := c in
  match verdicts compiled c with
  | Return (should_match, actual_match) =>
      if Bool.eqb actual_match should_match
      then (if verbose then [case_passed description] else [])
      else [case_failed description; show_test (shown test_str);
            show_expected should_match; show_got actual_match]
  | Raise _ => []
  end.

(** The number of cases on which the two verdicts agree. *)
Definition passed_count (compiled : Pattern) (cases : list edge_case) : nat :=
  length (filter (agree compiled) cases).

End Script.

(** The line of [feedback] for a score. *)
Definition tier (score : Q) : event :=
  if Qeq_bool score 1 then perfect
  else if Qgt_bool score (7 # 10) then not_terrible
  else if Qgt_bool score (3 # 10) then room_for_improvement
  else oof.

(** [w] after printing [out]. *)
Definition emit (out : list event) (w : world) : world :=
  {| stdout := stdout w ++ out; rng := rng w; drawn := drawn w; heap := heap w |}.

(** The verdicts of the reference patterns on their own subjects, in
    catalog order. *)
Definition reference_verdicts : list bool :=
  [true; false; true; true; true; true; false; false; false; false].

Arguments Modelled {E} r.
Arguments Unmodelled {E} o.

(** An engine that knows ASCII only, to run the definitions on. *)
Definition ascii_db : unicode_db :=
  {| uni_isdecimal := fun _ => false;
     uni_isspace := fun _ => false;
     uni_isalnum := fun _ => false |}.

Definition ascii_engine : engine :=
  {| unicode := ascii_db;
     opaque := Empty_set;
     compile_unmodelled := fun _ => Raise (Sre.BaseException (u "NotImplementedError"));
     ends_unmodelled := fun _ _ _ => [] |}.

Definition fresh_world : world :=
  {| stdout := []; rng := fun n => n; drawn := 0; heap := [] |}.

(** *** The shuffled catalog of a run *)

(** The state in which the loop of a run that starts in [w] begins:
    the catalog is allocated and shuffled. *)
Definition after_shuffle (w : world) : world :=
  snd (shuffle (length (heap w)) (snd (generate_edge_cases w))).

(** The order in which that run meets the cases. *)
Definition shuffled (w : world) : list edge_case :=
  nth (length (heap w)) (heap (after_shuffle w)) [].

(** What a run prints after its two opening lines. *)
Definition run_lines (E : engine) (compiled : Pattern E) (verbose : bool) (w : world)
  : list event :=
  flat_map (round_events E compiled verbose) (shuffled w)
  ++ [show_score (passed_count E compiled catalog) 10
        (Z.of_nat (passed_count E compiled catalog) # 10);
      tier (Z.of_nat (passed_count E compiled catalog) # 10)].

(** ** [main] *)

(** The lines of the terminal: those [main] prints itself, the two
    prompts of [input], and the lines of [test_pattern]. *)
Inductive line :=
| banner
| invitation
| ask_pattern
| ask_verbose
| farewell
| separator
| test_line (e : event).

(** What is on the screen, and the state of the process. *)
Record terminal := {
  screen : list line;
  process : world
}.

Definition show (l : line) (t : terminal) : terminal :=
  {| screen := screen t ++ [l]; process := process t |}.

(** [input] raises it at the end of the input. *)
Definition EOFError : Sre.exn := Sre.BaseException (u "EOFError").

Definition is_case_failed (e : event) : bool :=
  match e with
  | case_failed _ => true
  | _ => false
  end.

Definition is_case_passed (e : event) : bool :=
  match e with
  | case_passed _ => true
  | _ => false
  end.

Definition not_case_passed (e : event) : bool := negb (is_case_passed e).

Section Main.

Variable E : engine.

(** [str.lower] beyond ASCII: what the character [c] at index [i] of
    the string [s] becomes.  It may be several characters, and for the
    capital sigma it depends on the neighbours. *)
Variable lower_beyond_ascii : str -> nat -> N -> str.

Definition ascii_lower (c : N) : N :=
  if (65 <=? c)%N && (c <=? 90)%N then (c + 32)%N else c.

Fixpoint lower_from (s : str) (i : nat) (rest : str) : str :=
  match rest with
  | [] => []
  | c :: rest' =>
      (if (c <? 128)%N then [ascii_lower c] else lower_beyond_ascii s i c)
      ++ lower_from s (S i) rest'
  end.

(** [s.lower()] *)
Definition lower (s : str) : str := lower_from s 0 s.

Fixpoint lstrip (s : str) : str :=
  match s with
  | [] => []
  | c :: s' => if Sre.isspace (unicode E) c then lstrip s' else s
  end.

Definition rstrip (s : str) : str := rev (lstrip (rev s)).

(** [s.strip()]: white space is what [\s] matches. *)
Definition strip (s : str) : str := rstrip (lstrip s).

(** [test_pattern(pattern, verbose)] from [main]: its lines go to the
    screen. *)
Definition call_test_pattern (pattern : str) (verbose : bool) (t : terminal)
  : outcome unit * terminal :=
  let (r, w') := test_pattern E pattern verbose (process t) in
  (r, {| screen := screen t
                   ++ map test_line (skipn (length (stdout (process t))) (stdout w'));
         process := w' |}).

(** The [while True] loop.  [stdin] holds the lines still to be read;
    the result carries the lines left unread. *)
Fixpoint main_loop (stdin : list str) (t : terminal)
  : outcome unit * list str * terminal :=
  let t1 := show ask_pattern t in
  match stdin with
  | [] => (Raise EOFError, [], t1)
  | l1 :: stdin1 =>
      let pattern := strip l1 in
      if str_eqb (lower pattern) (u "quit")
      then (Return tt, stdin1, show farewell t1)
      else
        let t2 := show ask_verbose t1 in
        match stdin1 with
        | [] => (Raise EOFError, [], t2)
        | l2 :: stdin2 =>
            let verbose := str_eqb (lower (strip l2)) (u "y") in
            match call_test_pattern pattern verbose t2 with
            | (Return _, t3) => main_loop stdin2 (show separator t3)
            | (Raise e, t3) => (Raise e, stdin2, t3)
            end
        end
  end.

Definition main (stdin : list str) (t : terminal)
  : outcome unit * list str * terminal :=
  main_loop stdin (show invitation (show banner t)).

(** Every round of [stdin] is complete, does not say quit and has a
    pattern that [re.compile] accepts or rejects with [re.error]. *)
Fixpoint handled_rounds (stdin : list str) : Prop :=
  match stdin with
  | [] => True
  | [_] => False
  | l1 :: _ :: stdin2 =>
      str_eqb (lower (strip l1)) (u "quit") = false /\
      (forall e, re_compile E (strip l1) = Raise e -> exists d, e = Sre.re_error d) /\
      handled_rounds stdin2
  end.

End Main.

Definition fresh_terminal : terminal := {| screen := []; process := fresh_world |}.

(** Lower-casing that leaves the characters beyond ASCII alone. *)
Definition no_lowering : str -> nat -> N -> str := fun _ _ c => [c].

(** * Properties *)

(** ** The matcher finds exactly the spans *)

Module SreFacts.
Import Sre.

Lemma iter_add (R : nat -> nat -> Prop) (a b i j : nat) :
  iter R (a + b) i j <-> exists x, iter R a i x /\ iter R b x j.
Proof.
  revert i. induction a as [|a IH]; intros i; simpl.
  - split.
    + intros H. exists i. split; [reflexivity | exact H].
    + intros [x [-> H]]. exact H.
  - split.
    + intros [y [Hy H]]. apply IH in H. destruct H as [x [H1 H2]].
      exists x. split; [exists y; split; assumption | assumption].
    + intros [x [[y [Hy H1]] H2]]. exists y. split; [assumption|].
      apply IH. exists x. split; assumption.
Qed.

(** [body] explores the ends that [R] describes. *)
Definition explores (body : nat -> (nat -> bool) -> bool) (R : nat -> nat -> Prop) : Prop :=
  forall i k, body i k = true <-> exists j, R i j /\ k j = true.

(** [R] moves forward, and stays within a string of length [n] when it
    moves at all. *)
Definition forward (n : nat) (R : nat -> nat -> Prop) : Prop :=
  forall i j, R i j -> i <= j /\ (i < j -> j <= n).

Definition fits (b : option N) (n : nat) : Prop :=
  match b with
  | None => True
  | Some x => n <= N.to_nat x
  end.

Section Loops.
Variable body : nat -> (nat -> bool) -> bool.
Variable R : nat -> nat -> Prop.
Hypothesis body_R : explores body R.

Lemma rounds_pos_spec (p : positive) :
  forall k i, rounds_pos body p k i = true <->
              exists j, iter R (Pos.to_nat p) i j /\ k j = true.
Proof.
  unfold explores in body_R.
  induction p as [q IH|q IH|]; intros k i; simpl rounds_pos.
  - rewrite Pos2Nat.inj_xI. rewrite body_R. split.
    + intros [x [Hx H]]. apply IH in H. destruct H as [y [Hy H]].
      apply IH in H. destruct H as [j [Hj Hk]].
      exists j. split; [|exact Hk].
      simpl. exists x. split; [exact Hx|].
      replace (Pos.to_nat q + (Pos.to_nat q + 0)) with (Pos.to_nat q + Pos.to_nat q) by lia.
      apply iter_add. exists y. split; assumption.
    + intros [j [H Hk]]. simpl in H. destruct H as [x [Hx H]].
      replace (Pos.to_nat q + (Pos.to_nat q + 0)) with (Pos.to_nat q + Pos.to_nat q) in H by lia.
      apply iter_add in H. destruct H as [y [H1 H2]].
      exists x. split; [exact Hx|].
      apply IH. exists y. split; [exact H1|].
      apply IH. exists j. split; assumption.
  - rewrite Pos2Nat.inj_xO. rewrite IH. split.
    + intros [y [Hy H]]. apply IH in H. destruct H as [j [Hj Hk]].
      exists j. split; [|exact Hk].
      replace (2 * Pos.to_nat q) with (Pos.to_nat q + Pos.to_nat q) by lia.
      apply iter_add. exists y. split; assumption.
    + intros [j [H Hk]].
      replace (2 * Pos.to_nat q) with (Pos.to_nat q + Pos.to_nat q) in H by lia.
      apply iter_add in H. destruct H as [y [H1 H2]].
      exists y. split; [exact H1|].
      apply IH. exists j. split; assumption.
  - rewrite body_R. change (Pos.to_nat 1) with 1. simpl. split.
    + intros [j [Hj Hk]]. exists j. split; [|exact Hk].
      exists j. split; [exact Hj | reflexivity].
    + intros [j [[x [Hx ->]] Hk]]. exists j. split; assumption.
Qed.

Lemma rounds_spec (n : N) :
  forall k i, rounds body n k i = true <->
              exists j, iter R (N.to_nat n) i j /\ k j = true.
Proof.
  destruct n as [|p]; intros k i.
  - simpl. split.
    + intros H. exists i. split; [reflexivity | exact H].
    + intros [j [-> H]]. exact H.
  - apply rounds_pos_spec.
Qed.

Lemma fits_less (b : option N) (n : nat) :
  can_more b = true -> fits (less b) n -> fits b (S n).
Proof.
  destruct b as [x|]; simpl; [|trivial].
  intros Hx Hn. apply N.ltb_lt in Hx. rewrite N2Nat.inj_pred in Hn. lia.
Qed.

Lemma fits_more (b : option N) (n : nat) :
  fits b (S n) -> can_more b = true /\ fits (less b) n /\ fits b n.
Proof.
  destruct b as [x|]; simpl; [|auto].
  intros Hn. rewrite N2Nat.inj_pred. repeat split; try lia.
  apply N.ltb_lt. lia.
Qed.

Lemma until_sound (k : nat -> bool) (fuel : nat) :
  forall b i, until body k fuel b i = true ->
  exists n j, iter R n i j /\ fits b n /\ k j = true.
Proof.
  induction fuel as [|fuel IH]; intros b i; simpl.
  - destruct (k i) eqn:Hk; [|discriminate]. intros _.
    exists 0, i. repeat split; [destruct b; simpl; lia | exact Hk].
  - destruct (k i) eqn:Hk.
    + intros _. exists 0, i. repeat split; [destruct b; simpl; lia | exact Hk].
    + destruct (can_more b) eqn:Hb; [|discriminate].
      intros H. apply body_R in H. destruct H as [x [Hx H]].
      destruct (i <? x); [|discriminate].
      apply IH in H. destruct H as [n [j [Hn [Hfit Hj]]]].
      exists (S n), j. split; [exists x; split; assumption|].
      split; [apply fits_less; assumption | exact Hj].
Qed.

Lemma until_complete (len : nat) (k : nat -> bool) (Hfw : forward len R) :
  forall n fuel b i j,
    iter R n i j -> fits b n -> k j = true -> len - i <= fuel ->
    until body k fuel b i = true.
Proof.
  induction n as [|n IH]; intros fuel b i j Hn Hfit Hk Hfuel.
  - simpl in Hn. subst j. destruct fuel; simpl; rewrite Hk; reflexivity.
  - destruct Hn as [x [Hx Hn]].
    apply fits_more in Hfit. destruct Hfit as [Hb [Hless Hsame]].
    destruct (Hfw _ _ Hx) as [Hle Hin].
    destruct (Nat.eq_dec i x) as [->|Hne].
    + exact (IH fuel b x j Hn Hsame Hk Hfuel).
    + assert (Hlt : i < x) by lia. specialize (Hin Hlt).
      destruct fuel as [|fuel]; [lia|].
      simpl. destruct (k i); [reflexivity|]. rewrite Hb.
      apply body_R. exists x. split; [exact Hx|].
      apply Nat.ltb_lt in Hlt. rewrite Hlt.
      apply (IH fuel (less b) x j Hn Hless Hk). lia.
Qed.

Lemma repeat_loop_spec (len : nat) (lo hi : N) (Hfw : forward len R) :
  explores (fun i k => repeat_loop body len lo hi k i)
           (fun i j => exists n, within lo hi n /\ iter R n i j).
Proof.
  intros i k. unfold repeat_loop, within, budget.
  destruct (hi =? MAXREPEAT)%N eqn:Hmax; simpl negb; cbv iota.
  - apply N.eqb_eq in Hmax. simpl andb. cbv iota.
    rewrite rounds_spec. split.
    + intros [x [Hx H]]. apply until_sound in H.
      destruct H as [n [j [Hn [_ Hk]]]].
      exists j. split; [|exact Hk].
      exists (N.to_nat lo + n). split; [split; [lia | left; exact Hmax]|].
      apply iter_add. exists x. split; assumption.
    + intros [j [[n [[Hlo _] Hn]] Hk]].
      replace n with (N.to_nat lo + (n - N.to_nat lo)) in Hn by lia.
      apply iter_add in Hn. destruct Hn as [x [H1 H2]].
      exists x. split; [exact H1|].
      apply (until_complete len k Hfw _ _ None x j H2); [exact I | exact Hk | ].
      destruct (Nat.le_gt_cases x len) as [Hle|Hgt]; lia.
  - apply N.eqb_neq in Hmax. simpl andb.
    destruct (hi <? lo)%N eqn:Hlt.
    + apply N.ltb_lt in Hlt. split; [discriminate|].
      intros [j [[n [[Hlo [Hhi|Hhi]] _]] _]]; [contradiction | lia].
    + apply N.ltb_ge in Hlt. rewrite rounds_spec. split.
      * intros [x [Hx H]]. apply until_sound in H.
        destruct H as [n [j [Hn [Hfit Hk]]]]. simpl in Hfit.
        exists j. split; [|exact Hk].
        exists (N.to_nat lo + n). split; [split; [lia | right; lia]|].
        apply iter_add. exists x. split; assumption.
      * intros [j [[n [[Hlo [Hhi|Hhi]] Hn]] Hk]]; [contradiction|].
        replace n with (N.to_nat lo + (n - N.to_nat lo)) in Hn by lia.
        apply iter_add in Hn. destruct Hn as [x [H1 H2]].
        exists x. split; [exact H1|].
        apply (until_complete len k Hfw _ _ (Some (hi - lo)%N) x j H2);
          [simpl; lia | exact Hk | lia].
Qed.
End Loops.

Section Matcher.
Variable db : unicode_db.
Variable s : str.

Lemma iter_forward (R : nat -> nat -> Prop) (Hfw : forward (length s) R) (n : nat) :
  forward (length s) (iter R n).
Proof.
  induction n as [|n IH]; intros i j; simpl.
  - intros ->. split; [lia | intros; lia].
  - intros [x [Hx Hn]]. destruct (Hfw _ _ Hx). destruct (IH _ _ Hn). lia.
Qed.

Lemma nth_error_lt (i : nat) (c : N) : nth_error s i = Some c -> i < length s.
Proof. intros H. apply nth_error_Some. congruence. Qed.

Lemma spans_forward (r : re) : forward (length s) (spans db s r).
Proof.
  induction r as [ |c| |cat|a|r IH|r1 IH1 r2 IH2|r1 IH1 r2 IH2|lazy lo hi r IH];
    intros i j; simpl.
  - intros ->. lia.
  - intros [Hc ->]. apply nth_error_lt in Hc. lia.
  - intros [c [Hc [_ ->]]]. apply nth_error_lt in Hc. lia.
  - intros [c [Hc [_ ->]]]. apply nth_error_lt in Hc. lia.
  - intros [_ ->]. lia.
  - apply IH.
  - intros [x [H1 H2]]. destruct (IH1 _ _ H1). destruct (IH2 _ _ H2). lia.
  - intros [H|H]; [apply IH1 | apply IH2]; exact H.
  - intros [n [_ Hn]]. exact (iter_forward _ IH n i j Hn).
Qed.

Lemma one_char_spec (test : N -> bool) (i : nat) (k : nat -> bool) :
  one_char s test i k = true <->
  exists c, nth_error s i = Some c /\ test c = true /\ k (S i) = true.
Proof.
  unfold one_char. destruct (nth_error s i) as [c|].
  - destruct (test c) eqn:Ht.
    + split.
      * intros H. exists c. auto.
      * intros [c' [_ [_ H]]]. exact H.
    + split; [discriminate|]. intros [c' [Hc [Ht' _]]]. congruence.
  - split; [discriminate|]. intros [c' [Hc _]]. discriminate.
Qed.

(** The matcher continues exactly at the ends of the spans that start
    at [i]. *)
Lemma m_spec (r : re) : explores (m db s r) (spans db s r).
Proof.
  induction r as [ |c| |cat|a|r IH|r1 IH1 r2 IH2|r1 IH1 r2 IH2|lazy lo hi r IH];
    intros i k; simpl m; simpl spans.
  - split.
    + intros H. exists i. auto.
    + intros [j [-> H]]. exact H.
  - rewrite one_char_spec. split.
    + intros [c' [Hc [Ht H]]]. apply N.eqb_eq in Ht. subst c'.
      exists (S i). auto.
    + intros [j [[Hc ->] H]]. exists c. rewrite N.eqb_refl. auto.
  - rewrite one_char_spec. split.
    + intros [c [Hc [Ht H]]]. exists (S i). split; [|exact H].
      exists c. repeat split; [exact Hc|].
      intros ->. discriminate.
    + intros [j [[c [Hc [Hne ->]]] H]]. exists c. repeat split; try assumption.
      apply negb_true_iff. apply N.eqb_neq. exact Hne.
  - rewrite one_char_spec. split.
    + intros [c [Hc [Ht H]]]. exists (S i). split; [|exact H]. exists c. auto.
    + intros [j [[c [Hc [Ht ->]]] H]]. exists c. auto.
  - destruct (at_test s a i).
    + split.
      * intros H. exists i. auto.
      * intros [j [[_ ->] H]]. exact H.
    + split; [discriminate|]. intros [j [[H _] _]]. discriminate.
  - apply IH.
  - rewrite (IH1 i). split.
    + intros [x [H1 H]]. apply IH2 in H. destruct H as [j [H2 H]].
      exists j. split; [exists x; auto | exact H].
    + intros [j [[x [H1 H2]] H]]. exists x. split; [exact H1|].
      apply IH2. exists j. auto.
  - destruct (m db s r1 i k) eqn:H1.
    + split; [|reflexivity]. intros _. apply IH1 in H1.
      destruct H1 as [j [H1 H]]. exists j. auto.
    + rewrite (IH2 i). split.
      * intros [j [H2 H]]. exists j. auto.
      * intros [j [[H|H] Hk]].
        -- assert (m db s r1 i k = true) by (apply IH1; exists j; auto).
           congruence.
        -- exists j. auto.
  - apply (repeat_loop_spec (m db s r) (spans db s r) IH (length s) lo hi
             (spans_forward r) i k).
Qed.

(** [fullmatch] holds exactly when the pattern spans the whole
    string, from its first position to its last. *)
Lemma fullmatch_spans (r : re) :
  fullmatch db r s = true <-> spans db s r 0 (length s).
Proof.
  unfold fullmatch. rewrite (m_spec r 0). split.
  - intros [j [H Hj]]. apply Nat.eqb_eq in Hj. subst j. exact H.
  - intros H. exists (length s). split; [exact H | apply Nat.eqb_refl].
Qed.

(** [search] holds exactly when the pattern spans some slice. *)
Lemma search_spans (r : re) :
  search db r s = true <-> exists i j, i <= length s /\ spans db s r i j.
Proof.
  unfold search. rewrite existsb_exists. split.
  - intros [i [Hi H]]. apply in_seq in Hi. apply m_spec in H.
    destruct H as [j [H _]]. exists i, j. split; [lia | exact H].
  - intros [i [j [Hi H]]]. exists i. split; [apply in_seq; lia|].
    apply m_spec. exists j. auto.
Qed.
End Matcher.

End SreFacts.

(** ** Lists in place *)

Section InPlace.
Context {A : Type}.

Lemma set_nth_length (i : nat) (v : A) (x : list A) :
  length (set_nth i v x) = length x.
Proof.
  revert i. induction x as [|a x IH]; intros [|i]; simpl; auto.
Qed.

Lemma nth_error_set_nth_eq (i : nat) (v : A) (x : list A) :
  i < length x -> nth_error (set_nth i v x) i = Some v.
Proof.
  revert i. induction x as [|a x IH]; intros [|i]; simpl; intros H;
    try lia; auto. apply IH. lia.
Qed.

Lemma nth_error_set_nth_neq (i j : nat) (v : A) (x : list A) :
  i <> j -> nth_error (set_nth i v x) j = nth_error x j.
Proof.
  revert i j. induction x as [|a x IH]; intros [|i] [|j]; simpl; intros H;
    try reflexivity; try congruence. apply IH. congruence.
Qed.

Lemma nth_set_nth_eq (i : nat) (v d : A) (x : list A) :
  i < length x -> nth i (set_nth i v x) d = v.
Proof.
  intros H. apply nth_error_nth. apply nth_error_set_nth_eq. exact H.
Qed.

Lemma nth_set_nth_neq (i j : nat) (v d : A) (x : list A) :
  i <> j -> nth j (set_nth i v x) d = nth j x d.
Proof.
  revert i j. induction x as [|a x IH]; intros [|i] [|j]; simpl; intros H;
    try reflexivity; try congruence. apply IH. congruence.
Qed.

(** Overwriting one element trades it for the new one. *)
Lemma set_nth_Permutation (i : nat) (v a : A) (x : list A) :
  nth_error x i = Some a -> Permutation (v :: x) (a :: set_nth i v x).
Proof.
  revert i. induction x as [|b x IH]; intros [|i]; simpl; intros H;
    try discriminate.
  - injection H as ->. apply perm_swap.
  - apply IH with (i := i) in H.
    apply perm_trans with (b :: v :: x); [apply perm_swap|].
    apply perm_trans with (b :: a :: set_nth i v x); [|apply perm_swap].
    apply perm_skip. exact H.
Qed.

Lemma swap_Permutation (i j : nat) (x : list A) : Permutation x (swap i j x).
Proof.
  unfold swap.
  destruct (nth_error x j) as [xj|] eqn:Hj; [|reflexivity].
  destruct (nth_error x i) as [xi|] eqn:Hi; [|reflexivity].
  apply Permutation_cons_inv with (a := xj).
  apply perm_trans with (xi :: set_nth i xj x).
  - apply set_nth_Permutation. exact Hi.
  - apply set_nth_Permutation.
    destruct (Nat.eq_dec i j) as [->|Hne].
    + apply nth_error_set_nth_eq. apply nth_error_Some. congruence.
    + rewrite nth_error_set_nth_neq by exact Hne. exact Hj.
Qed.

Lemma filter_Permutation_length (f : A -> bool) (x y : list A) :
  Permutation x y -> length (filter f x) = length (filter f y).
Proof.
  induction 1 as [|a x y _ IH|a b x|x y z _ IH1 _ IH2]; simpl.
  - reflexivity.
  - destruct (f a); simpl; congruence.
  - destruct (f a), (f b); reflexivity.
  - congruence.
Qed.
End InPlace.

(** ** The parts of a run *)

Lemma emit_nil (w : world) : emit [] w = w.
Proof. destruct w. unfold emit. simpl. rewrite app_nil_r. reflexivity. Qed.

Lemma emit_app (a b : list event) (w : world) : emit (a ++ b) w = emit b (emit a w).
Proof. unfold emit. simpl. rewrite app_assoc. reflexivity. Qed.

Lemma feedback_tier (score : Q) (w : world) :
  feedback score w = (Return tt, emit [tier score] w).
Proof.
  unfold feedback, tier.
  destruct (Qeq_bool score 1); [reflexivity|].
  destruct (Qgt_bool score (7 # 10)); [reflexivity|].
  destruct (Qgt_bool score (3 # 10)); reflexivity.
Qed.

(** The shuffle permutes the list it is given, in place, and touches
    nothing else but the random generator. *)
Lemma shuffle_from_spec (i r : nat) :
  forall w, r < length (heap w) ->
  exists w',
    shuffle_from i r w = (Return tt, w') /\
    stdout w' = stdout w /\ rng w' = rng w /\
    length (heap w') = length (heap w) /\
    Permutation (nth r (heap w) []) (nth r (heap w') []) /\
    (forall r', r' <> r -> nth r' (heap w') [] = nth r' (heap w) []).
Proof.
  induction i as [|i IH]; intros w Hr.
  - exists w. simpl. unfold ret. repeat split; auto.
  - simpl. unfold bind at 1. unfold randbelow.
    unfold bind at 1. unfold load. simpl.
    unfold bind at 1. unfold store. simpl.
    match goal with
    | |- context [shuffle_from i r ?w1] =>
        destruct (IH w1) as [w' [Hrun [Hout [Hrng [Hlen [Hperm Hrest]]]]]]
    end.
    { simpl. rewrite set_nth_length. exact Hr. }
    simpl in *. exists w'. rewrite set_nth_length in Hlen.
    repeat split; auto.
    + rewrite nth_set_nth_eq in Hperm by exact Hr.
      eapply perm_trans; [apply swap_Permutation | exact Hperm].
    + intros r' Hne. rewrite (Hrest r' Hne).
      apply nth_set_nth_neq. congruence.
Qed.

Lemma shuffle_spec (r : nat) (w : world) :
  r < length (heap w) ->
  exists w',
    shuffle r w = (Return tt, w') /\
    stdout w' = stdout w /\ rng w' = rng w /\
    length (heap w') = length (heap w) /\
    Permutation (nth r (heap w) []) (nth r (heap w') []) /\
    (forall r', r' <> r -> nth r' (heap w') [] = nth r' (heap w) []).
Proof.
  intros Hr. unfold shuffle, len, bind, load, ret. simpl.
  apply shuffle_from_spec. exact Hr.
Qed.

Section ScriptFacts.
Variable E : engine.

(** Every reference pattern of the catalog is in the modelled fragment
    and compiles. *)
Lemma catalog_patterns_parse :
  Forall (fun c : edge_case => exists r, Sre.parse (snd (fst c)) = Sre.Parsed r) catalog.
Proof.
  unfold catalog. repeat constructor; simpl; eexists; vm_compute; reflexivity.
Qed.

(** The verdicts of the reference patterns do not depend on the
    engine's parameters. *)
Lemma catalog_reference :
  map (fun c : edge_case => re_fullmatch E (snd (fst c)) (fst (fst c))) catalog
  = map Return reference_verdicts.
Proof. vm_compute. reflexivity. Qed.

Lemma verdicts_catalog (compiled : Pattern E) :
  Forall (fun c => exists should_match,
            verdicts E compiled c
            = Return (should_match, Pattern_fullmatch E compiled (fst (fst c))))
         catalog.
Proof.
  assert (H : Forall (fun c : edge_case =>
                        exists b, re_fullmatch E (snd (fst c)) (fst (fst c)) = Return b)
                     catalog).
  { unfold catalog. repeat constructor; simpl; eexists; vm_compute; reflexivity. }
  eapply Forall_impl; [|exact H].
  intros [[test_str expected_pattern] description] [b Hb]. simpl in *.
  exists b. rewrite Hb. reflexivity.
Qed.

(** The loop, when no round raises: the counter grows by the number of
    agreeing cases, each round prints its lines, nothing else
    changes. *)
Lemma for_cases_spec (compiled : Pattern E) (verbose : bool) (cases : list edge_case) :
  Forall (fun c => exists v, verdicts E compiled c = Return v) cases ->
  forall passed w,
    for_cases E compiled verbose cases passed w
    = (Return (passed + passed_count E compiled cases),
       emit (flat_map (round_events E compiled verbose) cases) w).
Proof.
  induction 1 as [|[[test_str expected_pattern] description] rest [[s a] Hv] _ IH];
    intros passed w.
  - simpl. unfold ret, passed_count. simpl. rewrite emit_nil, Nat.add_0_r. reflexivity.
  - unfold passed_count in *. cbn [filter flat_map for_cases].
    unfold agree at 1. unfold round_events at 1.
    cbv [bind lift]. rewrite Hv.
    destruct (Bool.eqb a s).
    + destruct verbose; cbv [print ret]; rewrite IH; simpl length;
        rewrite Nat.add_succ_r; [rewrite emit_app|]; reflexivity.
    + cbv [print]. rewrite IH, emit_app. do 2 f_equal.
      unfold emit. simpl. rewrite <- !app_assoc. reflexivity.
Qed.

Lemma heap_after_shuffle (h h' : list (list edge_case)) (x : list edge_case) :
  length h' = length (h ++ [x]) ->
  (forall r', r' <> length h -> nth r' h' [] = nth r' (h ++ [x]) []) ->
  h' = h ++ [nth (length h) h' []].
Proof.
  intros Hlen Hrest. apply nth_ext with (d := []) (d' := []).
  - rewrite Hlen, !length_app. reflexivity.
  - intros n Hn. destruct (Nat.eq_dec n (length h)) as [->|Hne].
    + rewrite app_nth2, Nat.sub_diag by lia. reflexivity.
    + rewrite (Hrest n Hne).
      rewrite Hlen, length_app in Hn. simpl in Hn.
      rewrite !app_nth1 by lia. reflexivity.
Qed.

(** Once the pattern is compiled the run cannot fail: it allocates the
    catalog, shuffles it in place, evaluates the ten cases in the
    shuffled order [x], and prints the score and its tier. *)
Lemma spin_spec (compiled : Pattern E) (verbose : bool) (w : world) :
  exists x w',
    Permutation catalog x /\
    spin E compiled verbose w = (Return tt, w') /\
    stdout w' = stdout w ++ flat_map (round_events E compiled verbose) x
                ++ [show_score (passed_count E compiled catalog) 10
                      (Z.of_nat (passed_count E compiled catalog) # 10);
                    tier (Z.of_nat (passed_count E compiled catalog) # 10)] /\
    heap w' = heap w ++ [x] /\
    rng w' = rng w.
Proof.
  unfold spin, generate_edge_cases.
  unfold bind at 1. unfold new_list.
  set (w1 := {| stdout := stdout w; rng := rng w; drawn := drawn w;
                heap := heap w ++ [catalog] |}).
  destruct (shuffle_spec (length (heap w)) w1) as [w2 [Hrun [Hout [Hrng [Hlen [Hperm Hrest]]]]]].
  { simpl. rewrite length_app. simpl. lia. }
  simpl in Hout, Hrng, Hlen, Hperm, Hrest.
  rewrite app_nth2, Nat.sub_diag in Hperm by lia. simpl in Hperm.
  set (x := nth (length (heap w)) (heap w2) []) in *.
  exists x.
  unfold bind at 1. rewrite Hrun.
  unfold bind at 1. unfold load at 1. fold x.
  unfold bind at 1.
  rewrite for_cases_spec
    by (eapply Permutation_Forall; [exact Hperm|];
        eapply Forall_impl; [|apply (verdicts_catalog compiled)];
        intros c [b Hb]; eexists; exact Hb).
  unfold bind at 1. unfold len, bind, load, ret. simpl heap. fold x.
  rewrite <- (Permutation_length Hperm).
  unfold passed_count.
  rewrite <- (filter_Permutation_length (agree E compiled) catalog x Hperm).
  change (length catalog) with 10. cbv [divide ret print]. rewrite feedback_tier.
  change (Pos.of_nat 10) with 10%positive. rewrite Nat.add_0_l.
  eexists. split; [exact Hperm|]. split; [reflexivity|].
  unfold emit. cbn [stdout heap rng]. rewrite Hout, Hrng.
  split; [|split; [|reflexivity]].
  - rewrite <- !app_assoc. reflexivity.
  - apply heap_after_shuffle with (x := catalog); assumption.
Qed.

(** A pattern that compiles: the two opening lines, then the run. *)
Lemma test_pattern_compiled (pattern : str) (compiled : Pattern E) (verbose : bool)
    (w : world) :
  re_compile E pattern = Return compiled ->
  test_pattern E pattern verbose w
  = spin E compiled verbose (emit [testing_pattern pattern; spinning] w).
Proof.
  intros H. unfold test_pattern. cbv [bind print]. rewrite H.
  f_equal. unfold emit. simpl. rewrite <- app_assoc. reflexivity.
Qed.

(** A pattern [re.compile] rejects with [re.error]: two more lines and
    a normal return; no list is allocated, no random number drawn. *)
Lemma test_pattern_syntax_error (pattern : str) (e : Sre.diagnostic) (verbose : bool)
    (w : world) :
  re_compile E pattern = Raise (Sre.re_error e) ->
  test_pattern E pattern verbose w
  = (Return tt,
     emit [testing_pattern pattern; spinning; syntax_error e; doesnt_compile] w).
Proof.
  intros H. unfold test_pattern. cbv [bind print]. rewrite H.
  f_equal. unfold emit. simpl. rewrite <- !app_assoc. reflexivity.
Qed.

(** Any other exception of [re.compile] leaves [test_pattern]. *)
Lemma test_pattern_uncaught (pattern : str) (e : Sre.exn) (verbose : bool) (w : world) :
  re_compile E pattern = Raise e ->
  (forall d, e <> Sre.re_error d) ->
  test_pattern E pattern verbose w
  = (Raise e, emit [testing_pattern pattern; spinning] w).
Proof.
  intros H Hne. unfold test_pattern. cbv [bind print]. rewrite H.
  destruct e as [d| | |name]; [destruct (Hne d eq_refl)| | |];
    unfold raise; f_equal; unfold emit; simpl; rewrite <- app_assoc; reflexivity.
Qed.
End ScriptFacts.

(** ** The claims *)

Lemma passed_count_le (E : engine) (compiled : Pattern E) (cases : list edge_case) :
  passed_count E compiled cases <= length cases.
Proof. unfold passed_count. apply filter_length_le. Qed.

Lemma re_compile_parsed (E : engine) (pattern : str) (r : Sre.re) :
  Sre.parse pattern = Sre.Parsed r -> re_compile E pattern = Return (Modelled r).
Proof. intros H. unfold re_compile. rewrite H. reflexivity. Qed.

(** The full-match verdict of a compiled pattern, modelled or not,
    holds exactly when the pattern spans the whole string. *)
Lemma Pattern_fullmatch_spans (E : engine) (compiled : Pattern E) (s : str) :
  Pattern_fullmatch E compiled s = true <-> Pattern_spans E compiled s 0 (length s).
Proof.
  destruct compiled as [r|o]; simpl.
  - apply SreFacts.fullmatch_spans.
  - rewrite existsb_exists. split.
    + intros [j [Hj Heq]]. apply Nat.eqb_eq in Heq. subst j. exact Hj.
    + intros H. exists (length s). split; [exact H | apply Nat.eqb_refl].
Qed.

(** C1.  Both verdicts of a round are full-match verdicts.  For every
    case of the catalog and every user pattern that [re.compile]
    accepts, in the modelled fragment or outside it, [should_match]
    holds exactly when the reference pattern spans the subject from
    position 0 to its end, and [actual_match] exactly when the user's
    pattern does; a pattern whose matches all leave a character of the
    subject out, in front or behind, gets the verdict [false]. *)
Theorem full_match_semantics (E : engine) (c : edge_case) (pattern : str)
    (compiled : Pattern E) :
  In c catalog ->
  re_compile E pattern = Return compiled ->
  exists ref should_match actual_match,
    Sre.parse (snd (fst c)) = Sre.Parsed ref /\
    re_compile E (snd (fst c)) = Return (Modelled ref) /\
    verdicts E compiled c = Return (should_match, actual_match) /\
    (should_match = true <->
     Sre.spans (unicode E) (fst (fst c)) ref 0 (length (fst (fst c)))) /\
    (actual_match = true <->
     Pattern_spans E compiled (fst (fst c)) 0 (length (fst (fst c)))) /\
    ((forall i j, Pattern_spans E compiled (fst (fst c)) i j ->
                  i <> 0 \/ j <> length (fst (fst c))) ->
     actual_match = false).
Proof.
  intros Hc _.
  pose proof catalog_patterns_parse as Hall.
  rewrite Forall_forall in Hall. destruct (Hall c Hc) as [ref Href].
  destruct c as [[test_str expected_pattern] description]. cbn [fst snd] in *.
  exists ref, (Sre.fullmatch (unicode E) ref test_str),
         (Pattern_fullmatch E compiled test_str).
  split; [exact Href|].
  split; [apply re_compile_parsed; exact Href|].
  split.
  { unfold verdicts, re_fullmatch. rewrite (re_compile_parsed E _ _ Href). reflexivity. }
  split; [apply SreFacts.fullmatch_spans|].
  split; [apply Pattern_fullmatch_spans|].
  intros Hnone.
  destruct (Pattern_fullmatch E compiled test_str) eqn:Hm; [|reflexivity].
  apply Pattern_fullmatch_spans in Hm.
  destruct (Hnone _ _ Hm) as [H|H]; congruence.
Qed.

Lemma full_match_semantics_witness :
  In (u "  spaces  ", u "^spaces$", u "Whitespace: the silent regex killer") catalog /\
  re_compile ascii_engine (u "spaces")
  = Return (Modelled (Sre.Seq (Sre.Literal 115) (Sre.Seq (Sre.Literal 112)
             (Sre.Seq (Sre.Literal 97) (Sre.Seq (Sre.Literal 99)
             (Sre.Seq (Sre.Literal 101) (Sre.Seq (Sre.Literal 115) Sre.Empty))))))) /\
  exists ref should_match actual_match,
    Sre.parse (u "^spaces$") = Sre.Parsed ref /\
    re_compile ascii_engine (u "^spaces$") = Return (Modelled ref) /\
    verdicts ascii_engine
      (Modelled (Sre.Seq (Sre.Literal 115) (Sre.Seq (Sre.Literal 112)
         (Sre.Seq (Sre.Literal 97) (Sre.Seq (Sre.Literal 99)
         (Sre.Seq (Sre.Literal 101) (Sre.Seq (Sre.Literal 115) Sre.Empty)))))))
      (u "  spaces  ", u "^spaces$", u "Whitespace: the silent regex killer")
    = Return (should_match, actual_match) /\
    (should_match = true <->
     Sre.spans ascii_db (u "  spaces  ") ref 0 (length (u "  spaces  "))) /\
    (actual_match = true <->
     Pattern_spans ascii_engine
       (Modelled (Sre.Seq (Sre.Literal 115) (Sre.Seq (Sre.Literal 112)
          (Sre.Seq (Sre.Literal 97) (Sre.Seq (Sre.Literal 99)
          (Sre.Seq (Sre.Literal 101) (Sre.Seq (Sre.Literal 115) Sre.Empty)))))))
       (u "  spaces  ") 0 (length (u "  spaces  "))) /\
    ((forall i j,
         Pattern_spans ascii_engine
           (Modelled (Sre.Seq (Sre.Literal 115) (Sre.Seq (Sre.Literal 112)
              (Sre.Seq (Sre.Literal 97) (Sre.Seq (Sre.Literal 99)
              (Sre.Seq (Sre.Literal 101) (Sre.Seq (Sre.Literal 115) Sre.Empty)))))))
           (u "  spaces  ") i j ->
         i <> 0 \/ j <> length (u "  spaces  ")) ->
     actual_match = false).
Proof.
  split; [simpl; tauto|].
  split; [reflexivity|].
  apply (full_match_semantics ascii_engine
           (u "  spaces  ", u "^spaces$", u "Whitespace: the silent regex killer")
           (u "spaces")
           (Modelled (Sre.Seq (Sre.Literal 115) (Sre.Seq (Sre.Literal 112)
              (Sre.Seq (Sre.Literal 97) (Sre.Seq (Sre.Literal 99)
              (Sre.Seq (Sre.Literal 101) (Sre.Seq (Sre.Literal 115) Sre.Empty)))))))).
  - simpl; tauto.
  - reflexivity.
Defined.

(** A match somewhere in the subject is not enough: whenever the full
    match holds the search holds too, but not the other way round (see
    the price case below). *)
Lemma Pattern_fullmatch_search (E : engine) (compiled : Pattern E) (s : str) :
  Pattern_fullmatch E compiled s = true -> Pattern_search E compiled s = true.
Proof.
  destruct compiled as [r|o]; cbn [Pattern_fullmatch Pattern_search].
  - intros H. apply SreFacts.fullmatch_spans in H.
    apply SreFacts.search_spans. exists 0, (length s). split; [lia | exact H].
  - intros H. apply existsb_exists in H. destruct H as [j [Hj _]].
    apply existsb_exists. exists 0. split; [apply in_seq; lia|].
    destruct (ends_unmodelled E o s 0); [destruct Hj | reflexivity].
Qed.

(** The search the script does not make would find the reference
    pattern of the price case inside its subject; the full match does
    not. *)
Lemma price_case_search_and_fullmatch (db : unicode_db) :
  exists r, Sre.parse (u "\$\d+") = Sre.Parsed r /\
            Sre.search db r (u "price: $19.99") = true /\
            Sre.fullmatch db r (u "price: $19.99") = false.
Proof. eexists. split; [reflexivity|]. split; vm_compute; reflexivity. Qed.

(** C2.  [re.compile] rejects the count of [a{4294967295}] with an
    [OverflowError], which is no [re.error]: the handler of
    [test_pattern] does not catch it and the exception leaves the
    function after the two opening lines. *)
Theorem overflow_escapes_test_pattern (E : engine) (verbose : bool) (w : world) :
  re_compile E (u "a{4294967295}") = Raise Sre.OverflowError /\
  test_pattern E (u "a{4294967295}") verbose w
  = (Raise Sre.OverflowError,
     emit [testing_pattern (u "a{4294967295}"); spinning] w).
Proof.
  assert (H : re_compile E (u "a{4294967295}") = Raise Sre.OverflowError)
    by (vm_compute; reflexivity).
  split; [exact H|].
  apply test_pattern_uncaught; [exact H | discriminate].
Qed.

(** The unclosed group is the recoverable error: it is printed and
    [test_pattern] returns. *)
Lemma unclosed_is_reported (E : engine) (verbose : bool) (w : world) :
  test_pattern E (u "(unclosed") verbose w
  = (Return tt,
     emit [testing_pattern (u "(unclosed"); spinning;
           syntax_error Sre.missing_paren; doesnt_compile] w).
Proof. apply test_pattern_syntax_error. vm_compute. reflexivity. Qed.

(** C3.  Every call of [generate_edge_cases] succeeds and returns a new
    list that holds the ten tuples of [catalog] in catalog order,
    whatever the state of the process; it prints nothing, draws no
    random number and leaves the lists of earlier calls, shuffled or
    not, as they are. *)
Theorem generate_edge_cases_fresh (w : world) :
  exists r w',
    generate_edge_cases w = (Return r, w') /\
    length (heap w) <= r /\
    nth r (heap w') [] = catalog /\
    length catalog = 10 /\
    heap w' = heap w ++ [catalog] /\
    stdout w' = stdout w /\ rng w' = rng w /\ drawn w' = drawn w.
Proof.
  exists (length (heap w)). eexists. split; [reflexivity|]. simpl.
  repeat split; auto.
  rewrite app_nth2, Nat.sub_diag by lia. reflexivity.
Qed.

(** C4.  A run on a pattern that compiles prints the score line with
    [passed] the number of catalog cases on which the verdicts agree,
    [total] the length of the catalog, which is at least 1, and
    [score] exactly their quotient, a number between 0 and 1. *)
Theorem score_is_passed_over_total (E : engine) (pattern : str)
    (compiled : Pattern E) (verbose : bool) (w : world) :
  re_compile E pattern = Return compiled ->
  exists x w' score,
    test_pattern E pattern verbose w = (Return tt, w') /\
    Permutation catalog x /\
    stdout w' = stdout w ++ [testing_pattern pattern; spinning]
                ++ flat_map (round_events E compiled verbose) x
                ++ [show_score (length (filter (agree E compiled) catalog))
                      (length catalog) score;
                    tier score] /\
    score = (Z.of_nat (length (filter (agree E compiled) catalog))
             # Pos.of_nat (length catalog)) /\
    (score == inject_Z (Z.of_nat (length (filter (agree E compiled) catalog)))
              / inject_Z (Z.of_nat (length catalog)))%Q /\
    1 <= length catalog /\
    (0 <= score <= 1)%Q.
Proof.
  intros Hc.
  destruct (spin_spec E compiled verbose (emit [testing_pattern pattern; spinning] w))
    as [x [w' [Hperm [Hrun [Hout _]]]]].
  exists x, w', (Z.of_nat (passed_count E compiled catalog) # 10).
  split; [rewrite (test_pattern_compiled E pattern compiled verbose w Hc); exact Hrun|].
  split; [exact Hperm|].
  split; [rewrite Hout; unfold emit; cbn [stdout]; rewrite <- !app_assoc; reflexivity|].
  split; [reflexivity|].
  split; [apply Qmake_Qdiv|].
  split; [simpl; lia|].
  pose proof (passed_count_le E compiled catalog) as Hle.
  change (length catalog) with 10 in Hle.
  unfold Qle. simpl. lia.
Qed.

Lemma score_is_passed_over_total_witness :
  re_compile ascii_engine (u "a{5,10}")
  = Return (Modelled (Sre.Seq (Sre.Repeat false 5 10 (Sre.Literal 97)) Sre.Empty)) /\
  exists x w' score,
    test_pattern ascii_engine (u "a{5,10}") true fresh_world = (Return tt, w') /\
    Permutation catalog x /\
    stdout w' = stdout fresh_world ++ [testing_pattern (u "a{5,10}"); spinning]
                ++ flat_map (round_events ascii_engine
                               (Modelled (Sre.Seq (Sre.Repeat false 5 10 (Sre.Literal 97))
                                            Sre.Empty)) true) x
                ++ [show_score
                      (length (filter (agree ascii_engine
                                         (Modelled (Sre.Seq
                                                      (Sre.Repeat false 5 10 (Sre.Literal 97))
                                                      Sre.Empty))) catalog))
                      (length catalog) score;
                    tier score] /\
    score = (Z.of_nat (length (filter (agree ascii_engine
                                         (Modelled (Sre.Seq
                                                      (Sre.Repeat false 5 10 (Sre.Literal 97))
                                                      Sre.Empty))) catalog))
             # Pos.of_nat (length catalog)) /\
    (score == inject_Z (Z.of_nat (length (filter (agree ascii_engine
                                         (Modelled (Sre.Seq
                                                      (Sre.Repeat false 5 10 (Sre.Literal 97))
                                                      Sre.Empty))) catalog)))
              / inject_Z (Z.of_nat (length catalog)))%Q /\
    1 <= length catalog /\
    (0 <= score <= 1)%Q.
Proof.
  split; [reflexivity|].
  apply (score_is_passed_over_total ascii_engine (u "a{5,10}")
           (Modelled (Sre.Seq (Sre.Repeat false 5 10 (Sre.Literal 97)) Sre.Empty))
           true fresh_world).
  reflexivity.
Defined.

(** C5.  On every permutation of the catalog the loop counts the same
    number of agreeing cases as on the catalog itself, the total is the
    same and so is the score; the verdicts and the printed rounds are
    those of the catalog in the permuted order. *)
Theorem order_independence (E : engine) (compiled : Pattern E) (verbose : bool)
    (x : list edge_case) (w : world) :
  Permutation catalog x ->
  exists passed score,
    fst (for_cases E compiled verbose catalog 0 w) = Return passed /\
    fst (for_cases E compiled verbose x 0 w) = Return passed /\
    passed = length (filter (agree E compiled) catalog) /\
    length x = length catalog /\
    fst (divide passed (length catalog) w) = Return score /\
    fst (divide passed (length x) w) = Return score /\
    Permutation (map (verdicts E compiled) catalog) (map (verdicts E compiled) x) /\
    Permutation (flat_map (round_events E compiled verbose) catalog)
                (flat_map (round_events E compiled verbose) x).
Proof.
  intros Hperm.
  assert (Hall : Forall (fun c => exists v, verdicts E compiled c = Return v) catalog).
  { eapply Forall_impl; [|apply (verdicts_catalog E compiled)].
    intros c [b Hb]. eexists. exact Hb. }
  assert (Hallx : Forall (fun c => exists v, verdicts E compiled c = Return v) x)
    by (eapply Permutation_Forall; eassumption).
  exists (passed_count E compiled catalog),
         (Z.of_nat (passed_count E compiled catalog) # 10).
  rewrite !for_cases_spec by assumption. simpl fst.
  rewrite <- (Permutation_length Hperm).
  unfold passed_count.
  rewrite <- (filter_Permutation_length (agree E compiled) catalog x Hperm).
  repeat split.
  - apply Permutation_map. exact Hperm.
  - apply Permutation_flat_map. exact Hperm.
Qed.

Lemma order_independence_witness :
  Permutation catalog (rev catalog) /\
  exists passed score,
    fst (for_cases ascii_engine (Modelled Sre.Empty) true catalog 0 fresh_world)
    = Return passed /\
    fst (for_cases ascii_engine (Modelled Sre.Empty) true (rev catalog) 0 fresh_world)
    = Return passed /\
    passed = length (filter (agree ascii_engine (Modelled Sre.Empty)) catalog) /\
    length (rev catalog) = length catalog /\
    fst (divide passed (length catalog) fresh_world) = Return score /\
    fst (divide passed (length (rev catalog)) fresh_world) = Return score /\
    Permutation (map (verdicts ascii_engine (Modelled Sre.Empty)) catalog)
                (map (verdicts ascii_engine (Modelled Sre.Empty)) (rev catalog)) /\
    Permutation (flat_map (round_events ascii_engine (Modelled Sre.Empty) true) catalog)
                (flat_map (round_events ascii_engine (Modelled Sre.Empty) true)
                   (rev catalog)).
Proof.
  split; [apply Permutation_rev|].
  apply (order_independence ascii_engine (Modelled Sre.Empty) true (rev catalog)
           fresh_world).
  apply Permutation_rev.
Defined.

(** C6.  For a case of the catalog and a compiled pattern the verdicts
    exist and are a function of the two alone: in whatever two states a
    round of the loop runs on that case, whatever was printed before,
    whatever the counter and the random generator, both rounds find the
    same verdicts, add the same amount to the counter and print the
    same lines. *)
Theorem evaluate_case_deterministic (E : engine) (compiled : Pattern E) (c : edge_case) :
  In c catalog ->
  exists should_match actual_match,
    verdicts E compiled c = Return (should_match, actual_match) /\
    actual_match = Pattern_fullmatch E compiled (fst (fst c)) /\
    agree E compiled c = Bool.eqb actual_match should_match /\
    forall verbose passed1 passed2 w1 w2,
      for_cases E compiled verbose [c] passed1 w1
      = (Return (passed1 + if Bool.eqb actual_match should_match then 1 else 0),
         emit (round_events E compiled verbose c) w1) /\
      for_cases E compiled verbose [c] passed2 w2
      = (Return (passed2 + if Bool.eqb actual_match should_match then 1 else 0),
         emit (round_events E compiled verbose c) w2).
Proof.
  intros Hc.
  pose proof (verdicts_catalog E compiled) as Hall.
  rewrite Forall_forall in Hall. destruct (Hall c Hc) as [s Hs].
  exists s, (Pattern_fullmatch E compiled (fst (fst c))).
  assert (Hagree : agree E compiled c
                   = Bool.eqb (Pattern_fullmatch E compiled (fst (fst c))) s)
    by (unfold agree; rewrite Hs; reflexivity).
  split; [exact Hs|]. split; [reflexivity|]. split; [exact Hagree|].
  assert (Hround : forall verbose passed w,
             for_cases E compiled verbose [c] passed w
             = (Return (passed + if Bool.eqb (Pattern_fullmatch E compiled (fst (fst c))) s
                                 then 1 else 0),
                emit (round_events E compiled verbose c) w)).
  { intros verbose passed w.
    rewrite for_cases_spec by (constructor; [eexists; exact Hs | constructor]).
    unfold passed_count. simpl filter. simpl flat_map. rewrite app_nil_r.
    rewrite Hagree.
    destruct (Bool.eqb (Pattern_fullmatch E compiled (fst (fst c))) s); reflexivity. }
  intros verbose passed1 passed2 w1 w2. split; apply Hround.
Qed.

Lemma evaluate_case_deterministic_witness :
  In ([], u "^.*$", u "Empty string (your regex's existential crisis)") catalog /\
  exists should_match actual_match,
    verdicts ascii_engine (Modelled Sre.Any)
      ([], u "^.*$", u "Empty string (your regex's existential crisis)")
    = Return (should_match, actual_match) /\
    actual_match = Pattern_fullmatch ascii_engine (Modelled Sre.Any) [] /\
    agree ascii_engine (Modelled Sre.Any)
      ([], u "^.*$", u "Empty string (your regex's existential crisis)")
    = Bool.eqb actual_match should_match /\
    forall verbose passed1 passed2 w1 w2,
      for_cases ascii_engine (Modelled Sre.Any) verbose
        [([], u "^.*$", u "Empty string (your regex's existential crisis)")] passed1 w1
      = (Return (passed1 + if Bool.eqb actual_match should_match then 1 else 0),
         emit (round_events ascii_engine (Modelled Sre.Any) verbose
                 ([], u "^.*$", u "Empty string (your regex's existential crisis)")) w1) /\
      for_cases ascii_engine (Modelled Sre.Any) verbose
        [([], u "^.*$", u "Empty string (your regex's existential crisis)")] passed2 w2
      = (Return (passed2 + if Bool.eqb actual_match should_match then 1 else 0),
         emit (round_events ascii_engine (Modelled Sre.Any) verbose
                 ([], u "^.*$", u "Empty string (your regex's existential crisis)")) w2).
Proof.
  split; [simpl; tauto|].
  apply (evaluate_case_deterministic ascii_engine (Modelled Sre.Any)
           ([], u "^.*$", u "Empty string (your regex's existential crisis)")).
  simpl; tauto.
Defined.

(** C7.  The user pattern [a{5,10}] compiles; the seventh case of the
    catalog has the subject of a thousand [a] and the reference pattern
    [a{5,10}]; on it both verdicts are [false], so they agree. *)
Theorem long_repetition_scenario (E : engine) :
  exists compiled,
    re_compile E (u "a{5,10}") = Return compiled /\
    nth_error catalog 6
    = Some (str_mul (u "a") 1000, u "a{5,10}",
            u "Long strings: where greed goes to die") /\
    length (str_mul (u "a") 1000) = 1000 /\
    verdicts E compiled
      (str_mul (u "a") 1000, u "a{5,10}", u "Long strings: where greed goes to die")
    = Return (false, false) /\
    agree E compiled
      (str_mul (u "a") 1000, u "a{5,10}", u "Long strings: where greed goes to die")
    = true.
Proof.
  eexists. split; [vm_compute; reflexivity|].
  split; [reflexivity|].
  split; [vm_compute; reflexivity|].
  split; vm_compute; reflexivity.
Qed.

(** C8.  Once the pattern is compiled nothing raises: the verdicts of
    every catalog case exist, the shuffle returns with a permutation of
    the list it was given, the loop over any permutation of the catalog
    returns its counter and the score can be computed from it, and the
    run as a whole returns normally. *)
Theorem core_operations_total (E : engine) (pattern : str) (compiled : Pattern E)
    (verbose : bool) (w : world) :
  re_compile E pattern = Return compiled ->
  (forall c, In c catalog -> exists v, verdicts E compiled c = Return v) /\
  (forall r w0, r < length (heap w0) ->
     exists w1, shuffle r w0 = (Return tt, w1) /\
                Permutation (nth r (heap w0) []) (nth r (heap w1) [])) /\
  (forall x passed w0, Permutation catalog x ->
     exists n w1 score w2,
       for_cases E compiled verbose x passed w0 = (Return n, w1) /\
       divide n (length x) w1 = (Return score, w2)) /\
  exists w', test_pattern E pattern verbose w = (Return tt, w').
Proof.
  intros Hc.
  assert (Hall : Forall (fun c => exists v, verdicts E compiled c = Return v) catalog).
  { eapply Forall_impl; [|apply (verdicts_catalog E compiled)].
    intros c [b Hb]. eexists. exact Hb. }
  split; [rewrite Forall_forall in Hall; exact Hall|].
  split.
  { intros r w0 Hr. destruct (shuffle_spec r w0 Hr) as [w1 [Hrun [_ [_ [_ [Hperm _]]]]]].
    exists w1. split; assumption. }
  split.
  { intros x passed w0 Hperm.
    rewrite for_cases_spec by (eapply Permutation_Forall; eassumption).
    rewrite <- (Permutation_length Hperm). change (length catalog) with 10.
    do 4 eexists. split; reflexivity. }
  destruct (spin_spec E compiled verbose (emit [testing_pattern pattern; spinning] w))
    as [x [w' [_ [Hrun _]]]].
  exists w'. rewrite (test_pattern_compiled E pattern compiled verbose w Hc). exact Hrun.
Qed.

Lemma core_operations_total_witness :
  re_compile ascii_engine (u "foo.*baz")
  = Return (Modelled (Sre.Seq (Sre.Literal 102) (Sre.Seq (Sre.Literal 111)
             (Sre.Seq (Sre.Literal 111) (Sre.Seq (Sre.Repeat false 0 Sre.MAXREPEAT Sre.Any)
             (Sre.Seq (Sre.Literal 98) (Sre.Seq (Sre.Literal 97)
             (Sre.Seq (Sre.Literal 122) Sre.Empty)))))))) /\
  exists w', test_pattern ascii_engine (u "foo.*baz") false fresh_world = (Return tt, w').
Proof.
  split; [reflexivity|].
  refine (proj2 (proj2 (proj2
            (core_operations_total ascii_engine (u "foo.*baz")
               (Modelled (Sre.Seq (Sre.Literal 102) (Sre.Seq (Sre.Literal 111)
                  (Sre.Seq (Sre.Literal 111)
                  (Sre.Seq (Sre.Repeat false 0 Sre.MAXREPEAT Sre.Any)
                  (Sre.Seq (Sre.Literal 98) (Sre.Seq (Sre.Literal 97)
                  (Sre.Seq (Sre.Literal 122) Sre.Empty))))))))
               false fresh_world _)))).
  reflexivity.
Defined.

(** C9.  The catalog has ten records and the reference pattern of each
    compiles: [re.compile] returns a pattern object for it and raises
    nothing. *)
Theorem reference_patterns_compile (E : engine) :
  length catalog = 10 /\
  Forall (fun c : edge_case => exists r, re_compile E (snd (fst c)) = Return (Modelled r))
         catalog.
Proof.
  split; [reflexivity|].
  eapply Forall_impl; [|apply catalog_patterns_parse].
  intros c [r Hr]. exists r. apply re_compile_parsed. exact Hr.
Qed.

(** C10.  The sixth case of the catalog is the empty string with the
    reference pattern [^.*$].  Its [should_match] is [true] whatever the
    user's pattern, so the verdicts agree exactly when the user's
    pattern full-matches the empty string. *)
Theorem empty_string_case (E : engine) (compiled : Pattern E) :
  nth_error catalog 5
  = Some ([], u "^.*$", u "Empty string (your regex's existential crisis)") /\
  re_fullmatch E (u "^.*$") [] = Return true /\
  verdicts E compiled ([], u "^.*$", u "Empty string (your regex's existential crisis)")
  = Return (true, Pattern_fullmatch E compiled []) /\
  (agree E compiled ([], u "^.*$", u "Empty string (your regex's existential crisis)")
   = true
   <-> Pattern_fullmatch E compiled [] = true).
Proof.
  assert (Href : re_fullmatch E (u "^.*$") [] = Return true) by (vm_compute; reflexivity).
  split; [reflexivity|]. split; [exact Href|].
  assert (Hv : verdicts E compiled
                 ([], u "^.*$", u "Empty string (your regex's existential crisis)")
               = Return (true, Pattern_fullmatch E compiled [])).
  { unfold verdicts. rewrite Href. reflexivity. }
  split; [exact Hv|].
  unfold agree. rewrite Hv.
  destruct (Pattern_fullmatch E compiled []); simpl; split; auto.
Qed.

(** * Beyond the claims *)

(** ** A run, step by step *)

Lemma shuffle_from_drawn (i r : nat) (w : world) :
  drawn (snd (shuffle_from i r w)) = drawn w + i.
Proof.
  revert w. induction i as [|i IH]; intros w.
  - simpl. lia.
  - simpl. cbv [bind randbelow load store]. simpl.
    rewrite IH. simpl. lia.
Qed.

Lemma after_shuffle_spec (w : world) :
  shuffle (length (heap w)) (snd (generate_edge_cases w)) = (Return tt, after_shuffle w) /\
  stdout (after_shuffle w) = stdout w /\
  rng (after_shuffle w) = rng w /\
  drawn (after_shuffle w) = drawn w + 9 /\
  heap (after_shuffle w) = heap w ++ [shuffled w] /\
  Permutation catalog (shuffled w).
Proof.
  unfold shuffled, after_shuffle, generate_edge_cases, new_list. simpl snd.
  set (w1 := {| stdout := stdout w; rng := rng w; drawn := drawn w;
                heap := heap w ++ [catalog] |}).
  destruct (shuffle_spec (length (heap w)) w1) as [w2 [Hrun [Hout [Hrng [Hlen [Hperm Hrest]]]]]].
  { simpl. rewrite length_app. simpl. lia. }
  assert (Hdrawn : drawn (snd (shuffle (length (heap w)) w1)) = drawn w + 9).
  { unfold shuffle, len. cbv [bind load ret]. simpl heap.
    rewrite app_nth2, Nat.sub_diag by lia. simpl nth.
    change (length catalog - 1) with 9.
    rewrite shuffle_from_drawn. reflexivity. }
  rewrite Hrun in *. simpl snd in *. simpl in Hout, Hrng, Hlen, Hperm, Hrest.
  rewrite app_nth2, Nat.sub_diag in Hperm by lia. simpl in Hperm.
  repeat split; auto.
  apply heap_after_shuffle with (x := catalog); assumption.
Qed.

Section RunFacts.
Variable E : engine.

(** The run of a compiled pattern, in full. *)
Lemma spin_unfold (compiled : Pattern E) (verbose : bool) (w : world) :
  spin E compiled verbose w
  = (Return tt, emit (run_lines E compiled verbose w) (after_shuffle w)).
Proof.
  destruct (after_shuffle_spec w) as [Hrun [Hout [Hrng [Hdrawn [Hheap Hperm]]]]].
  unfold spin.
  unfold bind at 1. destruct (generate_edge_cases w) as [r0 w1] eqn:Hgen.
  unfold generate_edge_cases, new_list in Hgen. injection Hgen as <- <-.
  simpl snd in Hrun.
  unfold bind at 1. rewrite Hrun.
  unfold bind at 1. unfold load at 1. fold (shuffled w).
  unfold bind at 1.
  rewrite for_cases_spec
    by (eapply Permutation_Forall; [exact Hperm|];
        eapply Forall_impl; [|apply (verdicts_catalog E compiled)];
        intros c [b Hb]; eexists; exact Hb).
  unfold bind at 1. unfold len, bind, load, ret. simpl heap. fold (shuffled w).
  rewrite <- (Permutation_length Hperm).
  unfold passed_count at 1 2.
  rewrite <- (filter_Permutation_length (agree E compiled) catalog (shuffled w) Hperm).
  fold (passed_count E compiled catalog).
  change (length catalog) with 10. cbv [divide ret print]. rewrite feedback_tier.
  change (Pos.of_nat 10) with 10%positive. rewrite Nat.add_0_l.
  f_equal. unfold run_lines, emit. simpl. f_equal.
  rewrite <- !app_assoc. reflexivity.
Qed.

(** What [test_pattern] does, by the outcome of [re.compile]. *)
Lemma test_pattern_cases (pattern : str) (verbose : bool) (w : world) :
  (exists compiled,
      re_compile E pattern = Return compiled /\
      test_pattern E pattern verbose w
      = (Return tt,
         emit (run_lines E compiled verbose (emit [testing_pattern pattern; spinning] w))
           (after_shuffle (emit [testing_pattern pattern; spinning] w)))) \/
  (exists d,
      re_compile E pattern = Raise (Sre.re_error d) /\
      test_pattern E pattern verbose w
      = (Return tt,
         emit [testing_pattern pattern; spinning; syntax_error d; doesnt_compile] w)) \/
  (exists e,
      re_compile E pattern = Raise e /\ (forall d, e <> Sre.re_error d) /\
      test_pattern E pattern verbose w
      = (Raise e, emit [testing_pattern pattern; spinning] w)).
Proof.
  destruct (re_compile E pattern) as [compiled|e] eqn:Hc.
  - left. exists compiled. split; [reflexivity|].
    rewrite (test_pattern_compiled E pattern compiled verbose w Hc).
    apply spin_unfold.
  - destruct e as [d| | |name].
    + right. left. exists d. split; [reflexivity|].
      apply test_pattern_syntax_error. exact Hc.
    + right. right. eexists. split; [reflexivity|]. split; [discriminate|].
      apply test_pattern_uncaught; [exact Hc | discriminate].
    + right. right. eexists. split; [reflexivity|]. split; [discriminate|].
      apply test_pattern_uncaught; [exact Hc | discriminate].
    + right. right. eexists. split; [reflexivity|]. split; [discriminate|].
      apply test_pattern_uncaught; [exact Hc | discriminate].
Qed.

End RunFacts.

(** ** What a run prints and leaves behind *)

Lemma emit_heap (out : list event) (w : world) : heap (emit out w) = heap w.
Proof. reflexivity. Qed.

Lemma emit_drawn (out : list event) (w : world) : drawn (emit out w) = drawn w.
Proof. reflexivity. Qed.

Lemma emit_rng (out : list event) (w : world) : rng (emit out w) = rng w.
Proof. reflexivity. Qed.

Section RunProperties.
Variable E : engine.

Lemma stdout_test_pattern_compiled (pattern : str) (compiled : Pattern E)
    (verbose : bool) (w : world) :
  re_compile E pattern = Return compiled ->
  test_pattern E pattern verbose w
  = (Return tt,
     emit (run_lines E compiled verbose (emit [testing_pattern pattern; spinning] w))
       (after_shuffle (emit [testing_pattern pattern; spinning] w))).
Proof.
  intros Hc. rewrite (test_pattern_compiled E pattern compiled verbose w Hc).
  apply spin_unfold.
Qed.

Lemma skipn_length_app {A : Type} (a b : list A) : skipn (length a) (a ++ b) = b.
Proof.
  rewrite skipn_app, skipn_all, Nat.sub_diag. reflexivity.
Qed.

(** The lines a run adds to the output. *)
Lemma new_lines_compiled (pattern : str) (compiled : Pattern E) (verbose : bool)
    (w : world) :
  re_compile E pattern = Return compiled ->
  skipn (length (stdout w)) (stdout (snd (test_pattern E pattern verbose w)))
  = [testing_pattern pattern; spinning]
    ++ run_lines E compiled verbose (emit [testing_pattern pattern; spinning] w).
Proof.
  intros Hc. rewrite (stdout_test_pattern_compiled pattern compiled verbose w Hc).
  simpl snd. unfold emit at 1. simpl stdout.
  destruct (after_shuffle_spec (emit [testing_pattern pattern; spinning] w))
    as [_ [Hout _]].
  rewrite Hout. simpl stdout. rewrite <- app_assoc. apply skipn_length_app.
Qed.

(** One round: a failure prints four lines, a success one line in
    verbose mode and none otherwise. *)
Lemma round_events_counts (compiled : Pattern E) (verbose : bool) (c : edge_case) :
  (exists v, verdicts E compiled c = Return v) ->
  length (filter is_case_failed (round_events E compiled verbose c))
  = (if agree E compiled c then 0 else 1) /\
  length (filter is_case_passed (round_events E compiled verbose c))
  = (if agree E compiled c then if verbose then 1 else 0 else 0) /\
  length (round_events E compiled verbose c)
  = (if agree E compiled c then if verbose then 1 else 0 else 4).
Proof.
  intros [[s a] Hv]. unfold agree, round_events.
  destruct c as [[test_str expected_pattern] description]. rewrite Hv.
  destruct (Bool.eqb a s); [destruct verbose|]; repeat split.
Qed.

Lemma rounds_counts (compiled : Pattern E) (verbose : bool) (x : list edge_case) :
  Forall (fun c => exists v, verdicts E compiled c = Return v) x ->
  length (filter is_case_failed (flat_map (round_events E compiled verbose) x))
  + passed_count E compiled x = length x /\
  length (filter is_case_passed (flat_map (round_events E compiled verbose) x))
  = (if verbose then passed_count E compiled x else 0) /\
  length (flat_map (round_events E compiled verbose) x) + 4 * passed_count E compiled x
  = 4 * length x + (if verbose then passed_count E compiled x else 0).
Proof.
  unfold passed_count.
  induction 1 as [|c x Hc _ IH]; [destruct verbose; repeat split|].
  destruct IH as [IH1 [IH2 IH3]].
  destruct (round_events_counts compiled verbose c Hc) as [H1 [H2 H3]].
  simpl flat_map. simpl filter. rewrite !filter_app, !length_app, H1, H2, H3.
  destruct (agree E compiled c), verbose; simpl length; repeat split; lia.
Qed.

Lemma shuffled_rounds_counts (compiled : Pattern E) (verbose : bool) (w : world) :
  length (filter is_case_failed (flat_map (round_events E compiled verbose) (shuffled w)))
  + passed_count E compiled catalog = 10 /\
  length (filter is_case_passed (flat_map (round_events E compiled verbose) (shuffled w)))
  = (if verbose then passed_count E compiled catalog else 0) /\
  length (flat_map (round_events E compiled verbose) (shuffled w))
  + 4 * passed_count E compiled catalog
  = 40 + (if verbose then passed_count E compiled catalog else 0).
Proof.
  destruct (after_shuffle_spec w) as [_ [_ [_ [_ [_ Hperm]]]]].
  assert (Hall : Forall (fun c => exists v, verdicts E compiled c = Return v) (shuffled w)).
  { eapply Permutation_Forall; [exact Hperm|].
    eapply Forall_impl; [|apply (verdicts_catalog E compiled)].
    intros c [b Hb]. eexists. exact Hb. }
  destruct (rounds_counts compiled verbose (shuffled w) Hall) as [H1 [H2 H3]].
  assert (Hp : passed_count E compiled (shuffled w) = passed_count E compiled catalog)
    by (unfold passed_count; symmetry; apply filter_Permutation_length; exact Hperm).
  assert (Hl : length (shuffled w) = 10)
    by (rewrite <- (Permutation_length Hperm); reflexivity).
  rewrite Hp, Hl in *. repeat split; assumption.
Qed.

Lemma tier_is_no_round_line (score : Q) :
  is_case_failed (tier score) = false /\ is_case_passed (tier score) = false.
Proof.
  unfold tier. destruct (Qeq_bool score 1); [split; reflexivity|].
  destruct (Qgt_bool score (7 # 10)); [split; reflexivity|].
  destruct (Qgt_bool score (3 # 10)); split; reflexivity.
Qed.

(** [test_pattern] raises exactly when [re.compile] raises something
    other than [re.error], and then the same exception. *)
Theorem test_pattern_raises_iff (pattern : str) (verbose : bool) (w : world)
    (e : Sre.exn) :
  fst (test_pattern E pattern verbose w) = Raise e <->
  re_compile E pattern = Raise e /\ forall d, e <> Sre.re_error d.
Proof.
  destruct (test_pattern_cases E pattern verbose w)
    as [[compiled [Hc Hrun]] | [[d [Hc Hrun]] | [e' [Hc [Hne Hrun]]]]];
    rewrite Hrun, Hc; simpl fst; split.
  - discriminate.
  - intros [H _]. discriminate.
  - discriminate.
  - intros [H Hne]. injection H as <-. destruct (Hne d eq_refl).
  - intros H. injection H as <-. split; [reflexivity | exact Hne].
  - intros [H _]. injection H as <-. reflexivity.
Qed.

(** The lines of a run add up with its score: one failure headline for
    each case that is not counted as passed, one success line for each
    passed case in verbose mode and none otherwise, four lines for each
    failure, and four lines around the rounds. *)
Theorem printed_rounds_match_score (pattern : str) (compiled : Pattern E)
    (verbose : bool) (w : world) :
  re_compile E pattern = Return compiled ->
  let out := skipn (length (stdout w)) (stdout (snd (test_pattern E pattern verbose w))) in
  let passed := passed_count E compiled catalog in
  length (filter is_case_failed out) = 10 - passed /\
  length (filter is_case_passed out) = (if verbose then passed else 0) /\
  length out = 4 + 4 * (10 - passed) + (if verbose then passed else 0).
Proof.
  intros Hc out passed. unfold out.
  rewrite (new_lines_compiled pattern compiled verbose w Hc). unfold run_lines.
  destruct (shuffled_rounds_counts compiled verbose
              (emit [testing_pattern pattern; spinning] w)) as [H1 [H2 H3]].
  pose proof (passed_count_le E compiled catalog) as Hle.
  change (length catalog) with 10 in Hle. fold passed in H1, H2, H3, Hle |- *.
  clearbody passed.
  set (rounds := flat_map (round_events E compiled verbose)
                   (shuffled (emit [testing_pattern pattern; spinning] w))) in *.
  clearbody rounds.
  cbn [app filter is_case_failed is_case_passed].
  rewrite !filter_app, !length_app.
  cbn [filter is_case_failed is_case_passed length].
  rewrite !length_app. cbn [length].
  destruct (tier_is_no_round_line (Z.of_nat passed # 10)) as [Hf Hp].
  rewrite Hf, Hp.
  destruct verbose; repeat split; cbn [length]; lia.
Qed.

(** The feedback of a run follows the number of passed cases: all ten
    is perfect, eight or nine not terrible, four to seven leave room
    for improvement, three or fewer are an oof.  It is the last line of
    the run. *)
Theorem feedback_by_passed_cases (pattern : str) (compiled : Pattern E)
    (verbose : bool) (w : world) :
  re_compile E pattern = Return compiled ->
  let passed := passed_count E compiled catalog in
  last (stdout (snd (test_pattern E pattern verbose w))) spinning
  = (if passed =? 10 then perfect
     else if 8 <=? passed then not_terrible
     else if 4 <=? passed then room_for_improvement
     else oof).
Proof.
  intros Hc passed.
  rewrite (stdout_test_pattern_compiled pattern compiled verbose w Hc).
  simpl snd. unfold emit at 1. cbn [stdout]. unfold run_lines.
  fold passed.
  pose proof (passed_count_le E compiled catalog) as Hle.
  change (length catalog) with 10 in Hle. fold passed in Hle. clearbody passed.
  rewrite !app_assoc.
  change [show_score passed 10 (Z.of_nat passed # 10); tier (Z.of_nat passed # 10)]
    with ([show_score passed 10 (Z.of_nat passed # 10)] ++ [tier (Z.of_nat passed # 10)]).
  rewrite app_assoc, last_last.
  do 11 (destruct passed as [|passed]; [reflexivity|]). lia.
Qed.

(** What a run leaves behind: one new list, a permutation of the
    catalog; the lists that existed before are as they were; nine
    random numbers are drawn. *)
Theorem run_footprint (pattern : str) (compiled : Pattern E) (verbose : bool)
    (w : world) :
  re_compile E pattern = Return compiled ->
  exists x,
    heap (snd (test_pattern E pattern verbose w)) = heap w ++ [x] /\
    Permutation catalog x /\
    drawn (snd (test_pattern E pattern verbose w)) = drawn w + 9 /\
    rng (snd (test_pattern E pattern verbose w)) = rng w.
Proof.
  intros Hc.
  rewrite (stdout_test_pattern_compiled pattern compiled verbose w Hc).
  destruct (after_shuffle_spec (emit [testing_pattern pattern; spinning] w))
    as [_ [_ [Hrng [Hdrawn [Hheap Hperm]]]]].
  exists (shuffled (emit [testing_pattern pattern; spinning] w)).
  simpl snd. rewrite emit_heap, emit_drawn, emit_rng.
  rewrite Hheap, Hdrawn, Hrng. rewrite emit_heap, emit_drawn, emit_rng.
  repeat split. exact Hperm.
Qed.

Lemma round_events_quiet (compiled : Pattern E) (c : edge_case) :
  round_events E compiled false c
  = filter not_case_passed (round_events E compiled true c).
Proof.
  unfold round_events. destruct c as [[test_str expected_pattern] description].
  destruct (verdicts E compiled (test_str, expected_pattern, description)) as [[s a]|e];
    [|reflexivity].
  destruct (Bool.eqb a s); reflexivity.
Qed.

Lemma rounds_quiet (compiled : Pattern E) (x : list edge_case) :
  flat_map (round_events E compiled false) x
  = filter not_case_passed (flat_map (round_events E compiled true) x).
Proof.
  induction x as [|c x IH]; [reflexivity|].
  simpl flat_map. rewrite filter_app, <- IH, round_events_quiet. reflexivity.
Qed.

Lemma tier_not_case_passed (score : Q) : not_case_passed (tier score) = true.
Proof.
  unfold not_case_passed.
  destruct (tier_is_no_round_line score) as [_ H]. rewrite H. reflexivity.
Qed.

(** The verbose flag only adds the lines of the passed cases: for any
    pattern, the quiet run ends the same way, prints the lines of the
    verbose run without those lines, and leaves the same heap and
    random generator. *)
Theorem verbose_only_adds_passed_lines (pattern : str) (w : world) :
  fst (test_pattern E pattern false w) = fst (test_pattern E pattern true w) /\
  skipn (length (stdout w)) (stdout (snd (test_pattern E pattern false w)))
  = filter not_case_passed
      (skipn (length (stdout w)) (stdout (snd (test_pattern E pattern true w)))) /\
  heap (snd (test_pattern E pattern false w)) = heap (snd (test_pattern E pattern true w)) /\
  drawn (snd (test_pattern E pattern false w)) = drawn (snd (test_pattern E pattern true w)).
Proof.
  destruct (re_compile E pattern) as [compiled|e] eqn:Hc.
  - rewrite !(new_lines_compiled pattern compiled _ w Hc).
    rewrite !(stdout_test_pattern_compiled pattern compiled _ w Hc).
    split; [reflexivity|]. split; [|split; reflexivity].
    unfold run_lines. rewrite rounds_quiet.
    cbn [app filter not_case_passed is_case_passed negb].
    rewrite filter_app. cbn [filter not_case_passed is_case_passed negb].
    rewrite tier_not_case_passed. reflexivity.
  - destruct e as [d| | |name].
    + rewrite !(test_pattern_syntax_error E pattern d _ w Hc).
      split; [reflexivity|]. split; [|split; reflexivity].
      simpl snd. unfold emit. cbn [stdout]. rewrite skipn_length_app. reflexivity.
    + rewrite !(test_pattern_uncaught E pattern _ _ w Hc) by discriminate.
      split; [reflexivity|]. split; [|split; reflexivity].
      simpl snd. unfold emit. cbn [stdout]. rewrite skipn_length_app. reflexivity.
    + rewrite !(test_pattern_uncaught E pattern _ _ w Hc) by discriminate.
      split; [reflexivity|]. split; [|split; reflexivity].
      simpl snd. unfold emit. cbn [stdout]. rewrite skipn_length_app. reflexivity.
    + rewrite !(test_pattern_uncaught E pattern _ _ w Hc) by discriminate.
      split; [reflexivity|]. split; [|split; reflexivity].
      simpl snd. unfold emit. cbn [stdout]. rewrite skipn_length_app. reflexivity.
Qed.

End RunProperties.

(** The subject shown for a failed case is the subject itself up to 50
    characters; a longer one is cut to its first 50 characters followed
    by three dots, 53 characters in all. *)
Theorem shown_is_cut_at_50 (test_str : str) :
  length (shown test_str) <= 53 /\
  firstn 50 (shown test_str) = firstn 50 test_str /\
  (length test_str <= 50 -> shown test_str = test_str) /\
  (50 < length test_str ->
   shown test_str = firstn 50 test_str ++ u "..." /\ length (shown test_str) = 53).
Proof.
  unfold shown.
  destruct (50 <? length test_str) eqn:Hlen.
  - apply Nat.ltb_lt in Hlen.
    assert (Hf : length (firstn 50 test_str) = 50) by (rewrite length_firstn; lia).
    split; [rewrite length_app, Hf; simpl; lia|].
    split.
    { rewrite firstn_app, Hf, Nat.sub_diag, firstn_firstn. simpl firstn at 2.
      rewrite app_nil_r. reflexivity. }
    split; [lia|]. intros _. split; [reflexivity|].
    rewrite length_app, Hf. reflexivity.
  - apply Nat.ltb_ge in Hlen.
    rewrite app_nil_r, !firstn_all2 by lia.
    split; [lia|]. split; [reflexivity|]. split; [reflexivity | lia].
Qed.

(** ** The session *)

Section MainFacts.
Variable E : engine.
Variable lower_beyond_ascii : str -> nat -> N -> str.

Local Abbreviation lower := (lower lower_beyond_ascii).
Local Abbreviation loop := (main_loop E lower_beyond_ascii).
Local Abbreviation quits l := (str_eqb (lower (strip E l)) (u "quit")).

(** *** [strip] and [lower] *)

Lemma lstrip_idempotent (s : str) : lstrip E (lstrip E s) = lstrip E s.
Proof.
  induction s as [|c s IH]; [reflexivity|].
  simpl. destruct (Sre.isspace (unicode E) c) eqn:Hc; [exact IH|].
  simpl. rewrite Hc. reflexivity.
Qed.

Lemma lstrip_head (s : str) :
  lstrip E s = [] \/
  exists c s', lstrip E s = c :: s' /\ Sre.isspace (unicode E) c = false.
Proof.
  induction s as [|c s IH]; [left; reflexivity|].
  simpl. destruct (Sre.isspace (unicode E) c) eqn:Hc; [exact IH|].
  right. exists c, s. auto.
Qed.

Lemma lstrip_snoc (s : str) (c : N) :
  Sre.isspace (unicode E) c = false -> lstrip E (s ++ [c]) = lstrip E s ++ [c].
Proof.
  intros Hc. induction s as [|d s IH]; simpl.
  - rewrite Hc. reflexivity.
  - destruct (Sre.isspace (unicode E) d); [exact IH | reflexivity].
Qed.

Lemma strip_idempotent (s : str) : strip E (strip E s) = strip E s.
Proof.
  unfold strip.
  assert (H : lstrip E (rstrip E (lstrip E s)) = rstrip E (lstrip E s)).
  { destruct (lstrip_head s) as [-> | [c [s' [-> Hc]]]]; [reflexivity|].
    unfold rstrip. simpl rev. rewrite (lstrip_snoc _ _ Hc), rev_app_distr.
    simpl. rewrite Hc. reflexivity. }
  rewrite H. unfold rstrip. rewrite rev_involutive, lstrip_idempotent. reflexivity.
Qed.

Lemma lstrip_Forall (P : N -> Prop) (s : str) : Forall P s -> Forall P (lstrip E s).
Proof.
  induction 1 as [|c s Hc Hs IH]; simpl; [constructor|].
  destruct (Sre.isspace (unicode E) c); [exact IH | constructor; assumption].
Qed.

Lemma strip_Forall (P : N -> Prop) (s : str) : Forall P s -> Forall P (strip E s).
Proof.
  intros H. unfold strip, rstrip.
  apply Forall_rev, lstrip_Forall, Forall_rev, lstrip_Forall. exact H.
Qed.

Lemma lower_from_ascii (s : str) (i : nat) (rest : str) :
  Forall (fun c => (c < 128)%N) rest ->
  lower_from lower_beyond_ascii s i rest = map ascii_lower rest.
Proof.
  intros H. revert i. induction H as [|c rest Hc _ IH]; intros i; simpl; [reflexivity|].
  apply N.ltb_lt in Hc. rewrite Hc, IH. reflexivity.
Qed.

(** On ASCII strings [lower] maps [A-Z] to [a-z], whatever happens
    beyond ASCII. *)
Lemma lower_ascii (s : str) :
  Forall (fun c => (c < 128)%N) s -> lower s = map ascii_lower s.
Proof. apply lower_from_ascii. Qed.

(** *** The steps of the loop *)

Lemma main_loop_quit (l1 : str) (rest : list str) (t : terminal) :
  quits l1 = true ->
  loop (l1 :: rest) t = (Return tt, rest, show farewell (show ask_pattern t)).
Proof. intros H. cbn [main_loop]. rewrite H. reflexivity. Qed.

Lemma main_loop_round (l1 l2 : str) (rest : list str) (t : terminal) :
  quits l1 = false ->
  loop (l1 :: l2 :: rest) t
  = match call_test_pattern E (strip E l1) (str_eqb (lower (strip E l2)) (u "y"))
            (show ask_verbose (show ask_pattern t)) with
    | (Return _, t3) => loop rest (show separator t3)
    | (Raise e, t3) => (Raise e, rest, t3)
    end.
Proof. intros H. cbn [main_loop]. rewrite H. reflexivity. Qed.

Lemma call_syntax_error (pattern : str) (verbose : bool) (t : terminal)
    (d : Sre.diagnostic) :
  re_compile E pattern = Raise (Sre.re_error d) ->
  call_test_pattern E pattern verbose t
  = (Return tt,
     {| screen := screen t ++ [test_line (testing_pattern pattern); test_line spinning;
                               test_line (syntax_error d); test_line doesnt_compile];
        process := emit [testing_pattern pattern; spinning; syntax_error d;
                         doesnt_compile] (process t) |}).
Proof.
  intros Hc. unfold call_test_pattern.
  rewrite (test_pattern_syntax_error E pattern d verbose (process t) Hc).
  unfold emit at 1. cbn [stdout]. rewrite skipn_length_app. reflexivity.
Qed.

Lemma call_uncaught (pattern : str) (verbose : bool) (t : terminal) (e : Sre.exn) :
  re_compile E pattern = Raise e ->
  (forall d, e <> Sre.re_error d) ->
  call_test_pattern E pattern verbose t
  = (Raise e,
     {| screen := screen t ++ [test_line (testing_pattern pattern); test_line spinning];
        process := emit [testing_pattern pattern; spinning] (process t) |}).
Proof.
  intros Hc Hne. unfold call_test_pattern.
  rewrite (test_pattern_uncaught E pattern e verbose (process t) Hc Hne).
  unfold emit at 1. cbn [stdout]. rewrite skipn_length_app. reflexivity.
Qed.

(** A call returns unless [re.compile] raises something other than
    [re.error]. *)
Lemma call_returns (pattern : str) (verbose : bool) (t : terminal) :
  (forall e, re_compile E pattern = Raise e -> exists d, e = Sre.re_error d) ->
  exists t', call_test_pattern E pattern verbose t = (Return tt, t').
Proof.
  intros Hh. unfold call_test_pattern.
  destruct (test_pattern_cases E pattern verbose (process t))
    as [[compiled [Hc Hrun]] | [[d [Hc Hrun]] | [e [Hc [Hne Hrun]]]]].
  - rewrite Hrun. eexists. reflexivity.
  - rewrite Hrun. eexists. reflexivity.
  - destruct (Hh e Hc) as [d ->]. destruct (Hne d eq_refl).
Qed.

Lemma call_outcome (pattern : str) (verbose : bool) (t : terminal) :
  fst (call_test_pattern E pattern verbose t)
  = fst (test_pattern E pattern verbose (process t)).
Proof.
  unfold call_test_pattern.
  destruct (test_pattern E pattern verbose (process t)). reflexivity.
Qed.

(** *** The session as a whole *)

(** The word quit ends the session in any mix of upper and lower case
    and with white space around it: after the banner and the prompt
    only the farewell is printed, no test runs, and the rest of the
    input stays unread. *)
Theorem quit_in_any_case (l : str) (rest : list str) (t : terminal) :
  Forall (fun c => (c < 128)%N) l ->
  map ascii_lower (strip E l) = u "quit" ->
  main E lower_beyond_ascii (l :: rest) t
  = (Return tt, rest,
     {| screen := screen t ++ [banner; invitation; ask_pattern; farewell];
        process := process t |}).
Proof.
  intros Hascii Hquit. unfold main.
  rewrite main_loop_quit.
  - unfold show. cbn [screen process]. rewrite <- !app_assoc. reflexivity.
  - rewrite (lower_ascii _ (strip_Forall _ _ Hascii)), Hquit. reflexivity.
Qed.

(** A pattern that [re.compile] rejects with [re.error] costs one
    round: its four lines and the separator are printed, and the loop
    goes on with the next line of input; the heap and the random
    generator are as before the round. *)
Theorem session_survives_syntax_error (l1 l2 : str) (rest : list str) (t : terminal)
    (d : Sre.diagnostic) :
  quits l1 = false ->
  re_compile E (strip E l1) = Raise (Sre.re_error d) ->
  loop (l1 :: l2 :: rest) t
  = loop rest
      {| screen := screen t
                   ++ [ask_pattern; ask_verbose;
                       test_line (testing_pattern (strip E l1)); test_line spinning;
                       test_line (syntax_error d); test_line doesnt_compile;
                       separator];
         process := emit [testing_pattern (strip E l1); spinning; syntax_error d;
                          doesnt_compile] (process t) |}.
Proof.
  intros Hq Hc. rewrite (main_loop_round l1 l2 rest t Hq).
  rewrite (call_syntax_error _ _ _ d Hc).
  unfold show. cbn [screen process]. rewrite <- !app_assoc. reflexivity.
Qed.

(** Any other exception of [re.compile] ends the session on the spot:
    it leaves [main] after the two opening lines of the round, without
    separator or farewell, and the rest of the input stays unread. *)
Theorem uncaught_exception_ends_session (l1 l2 : str) (rest : list str) (t : terminal)
    (e : Sre.exn) :
  quits l1 = false ->
  re_compile E (strip E l1) = Raise e ->
  (forall d, e <> Sre.re_error d) ->
  loop (l1 :: l2 :: rest) t
  = (Raise e, rest,
     {| screen := screen t
                  ++ [ask_pattern; ask_verbose;
                      test_line (testing_pattern (strip E l1)); test_line spinning];
        process := emit [testing_pattern (strip E l1); spinning] (process t) |}).
Proof.
  intros Hq Hc Hne. rewrite (main_loop_round l1 l2 rest t Hq).
  rewrite (call_uncaught _ _ _ e Hc Hne).
  unfold show. cbn [screen process]. rewrite <- !app_assoc. reflexivity.
Qed.

(** White space around the typed pattern makes no difference, and
    neither does white space around the answer to the verbose
    prompt. *)
Theorem surrounding_whitespace_is_ignored (l1 l2 : str) (rest : list str)
    (t : terminal) :
  (forall stdin1, loop (l1 :: stdin1) t = loop (strip E l1 :: stdin1) t) /\
  (quits l1 = false ->
   loop (l1 :: l2 :: rest) t = loop (l1 :: strip E l2 :: rest) t).
Proof.
  split.
  - intros [|l stdin2]; cbn [main_loop]; rewrite !strip_idempotent;
      reflexivity.
  - intros Hq. rewrite !(main_loop_round l1 _ rest t Hq), strip_idempotent.
    reflexivity.
Qed.

Lemma main_loop_normal_exit (n : nat) :
  forall stdin t rest t',
    length stdin <= n ->
    loop stdin t = (Return tt, rest, t') ->
    exists rounds l pre,
      stdin = rounds ++ l :: rest /\
      Nat.Even (length rounds) /\
      quits l = true /\
      screen t' = pre ++ [ask_pattern; farewell].
Proof.
  induction n as [|n IH]; intros stdin t rest t' Hlen Hrun.
  - destruct stdin; [|simpl in Hlen; lia]. discriminate Hrun.
  - destruct stdin as [|l1 stdin1]; [discriminate Hrun|].
    destruct (quits l1) eqn:Hq.
    + rewrite (main_loop_quit l1 stdin1 t Hq) in Hrun.
      injection Hrun as <- <-.
      exists [], l1, (screen t). split; [reflexivity|].
      split; [exists 0; reflexivity|]. split; [exact Hq|].
      unfold show. cbn [screen]. rewrite <- app_assoc. reflexivity.
    + destruct stdin1 as [|l2 stdin2].
      { cbn [main_loop] in Hrun. rewrite Hq in Hrun. discriminate Hrun. }
      rewrite (main_loop_round l1 l2 stdin2 t Hq) in Hrun.
      destruct (call_test_pattern E (strip E l1) (str_eqb (lower (strip E l2)) (u "y"))
                  (show ask_verbose (show ask_pattern t))) as [[[]|e] t3];
        [|discriminate Hrun].
      apply IH in Hrun; [|simpl in Hlen; lia].
      destruct Hrun as [rounds [l [pre [-> [[k Hk] [Hl Hscreen]]]]]].
      exists (l1 :: l2 :: rounds), l, pre. split; [reflexivity|].
      split; [exists (S k); simpl; lia|]. split; assumption.
Qed.

(** The only normal end of the session is the farewell: when the loop
    returns, it has read a whole number of rounds and then a line that
    says quit, what follows that line is unread, and the farewell is
    the last line on the screen. *)
Theorem normal_exit_only_by_quit (stdin : list str) (t : terminal) (rest : list str)
    (t' : terminal) :
  loop stdin t = (Return tt, rest, t') ->
  exists rounds l pre,
    stdin = rounds ++ l :: rest /\
    Nat.Even (length rounds) /\
    quits l = true /\
    screen t' = pre ++ [ask_pattern; farewell].
Proof.
  intros Hrun. exact (main_loop_normal_exit (length stdin) stdin t rest t'
                        (Nat.le_refl _) Hrun).
Qed.

Lemma main_loop_exhausted (n : nat) :
  forall stdin t,
    length stdin <= n ->
    handled_rounds E lower_beyond_ascii stdin ->
    exists t' pre,
      loop stdin t = (Raise EOFError, [], t') /\
      screen t' = pre ++ [ask_pattern].
Proof.
  induction n as [|n IH]; intros stdin t Hlen Hh.
  - destruct stdin; [|simpl in Hlen; lia].
    eexists. exists (screen t). split; reflexivity.
  - destruct stdin as [|l1 [|l2 stdin2]].
    + eexists. exists (screen t). split; reflexivity.
    + destruct Hh.
    + destruct Hh as [Hq [Hc Hrest]].
      rewrite (main_loop_round l1 l2 stdin2 t Hq).
      destruct (call_returns (strip E l1) (str_eqb (lower (strip E l2)) (u "y"))
                  (show ask_verbose (show ask_pattern t)) Hc) as [t3 ->].
      apply IH; [simpl in Hlen; lia | exact Hrest].
Qed.

(** A session that never says quit, and whose patterns all compile or
    are rejected with [re.error], ends when the input does: the loop
    prompts for the next pattern and [input] raises [EOFError]. *)
Theorem input_exhausted_raises_EOFError (stdin : list str) (t : terminal) :
  handled_rounds E lower_beyond_ascii stdin ->
  exists t' pre,
    loop stdin t = (Raise EOFError, [], t') /\
    screen t' = pre ++ [ask_pattern].
Proof.
  intros Hh. exact (main_loop_exhausted (length stdin) stdin t (Nat.le_refl _) Hh).
Qed.

End MainFacts.

(** ** Sample runs *)

Lemma printed_rounds_match_score_witness :
  re_compile ascii_engine (u "a{5,10}")
  = Return (Modelled (Sre.Seq (Sre.Repeat false 5 10 (Sre.Literal 97)) Sre.Empty)) /\
  let out := skipn (length (stdout fresh_world))
               (stdout (snd (test_pattern ascii_engine (u "a{5,10}") true fresh_world))) in
  let passed := passed_count ascii_engine
                  (Modelled (Sre.Seq (Sre.Repeat false 5 10 (Sre.Literal 97)) Sre.Empty))
                  catalog in
  length (filter is_case_failed out) = 10 - passed /\
  length (filter is_case_passed out) = (if true then passed else 0) /\
  length out = 4 + 4 * (10 - passed) + (if true then passed else 0).
Proof.
  split; [reflexivity|].
  apply (printed_rounds_match_score ascii_engine (u "a{5,10}")
           (Modelled (Sre.Seq (Sre.Repeat false 5 10 (Sre.Literal 97)) Sre.Empty))
           true fresh_world).
  reflexivity.
Defined.

Lemma feedback_by_passed_cases_witness :
  re_compile ascii_engine (u "a{5,10}")
  = Return (Modelled (Sre.Seq (Sre.Repeat false 5 10 (Sre.Literal 97)) Sre.Empty)) /\
  let passed := passed_count ascii_engine
                  (Modelled (Sre.Seq (Sre.Repeat false 5 10 (Sre.Literal 97)) Sre.Empty))
                  catalog in
  last (stdout (snd (test_pattern ascii_engine (u "a{5,10}") false fresh_world))) spinning
  = (if passed =? 10 then perfect
     else if 8 <=? passed then not_terrible
     else if 4 <=? passed then room_for_improvement
     else oof).
Proof.
  split; [reflexivity|].
  apply (feedback_by_passed_cases ascii_engine (u "a{5,10}")
           (Modelled (Sre.Seq (Sre.Repeat false 5 10 (Sre.Literal 97)) Sre.Empty))
           false fresh_world).
  reflexivity.
Defined.

Lemma run_footprint_witness :
  re_compile ascii_engine (u "a{5,10}")
  = Return (Modelled (Sre.Seq (Sre.Repeat false 5 10 (Sre.Literal 97)) Sre.Empty)) /\
  exists x,
    heap (snd (test_pattern ascii_engine (u "a{5,10}") false fresh_world))
    = heap fresh_world ++ [x] /\
    Permutation catalog x /\
    drawn (snd (test_pattern ascii_engine (u "a{5,10}") false fresh_world))
    = drawn fresh_world + 9 /\
    rng (snd (test_pattern ascii_engine (u "a{5,10}") false fresh_world))
    = rng fresh_world.
Proof.
  split; [reflexivity|].
  apply (run_footprint ascii_engine (u "a{5,10}")
           (Modelled (Sre.Seq (Sre.Repeat false 5 10 (Sre.Literal 97)) Sre.Empty))
           false fresh_world).
  reflexivity.
Defined.

Lemma quit_in_any_case_witness :
  Forall (fun c => (c < 128)%N) (u "  QuIt ") /\
  map ascii_lower (strip ascii_engine (u "  QuIt ")) = u "quit" /\
  main ascii_engine no_lowering [u "  QuIt "; u "a{5,10}"] fresh_terminal
  = (Return tt, [u "a{5,10}"],
     {| screen := screen fresh_terminal ++ [banner; invitation; ask_pattern; farewell];
        process := process fresh_terminal |}).
Proof.
  assert (H : Forall (fun c => (c < 128)%N) (u "  QuIt "))
    by (repeat constructor).
  split; [exact H|]. split; [reflexivity|].
  apply (quit_in_any_case ascii_engine no_lowering (u "  QuIt ") [u "a{5,10}"]
           fresh_terminal H).
  reflexivity.
Defined.

Lemma session_survives_syntax_error_witness :
  str_eqb (lower no_lowering (strip ascii_engine (u "(unclosed"))) (u "quit") = false /\
  re_compile ascii_engine (strip ascii_engine (u "(unclosed"))
  = Raise (Sre.re_error Sre.missing_paren) /\
  main_loop ascii_engine no_lowering [u "(unclosed"; u "n"; u "quit"] fresh_terminal
  = main_loop ascii_engine no_lowering [u "quit"]
      {| screen := screen fresh_terminal
                   ++ [ask_pattern; ask_verbose;
                       test_line (testing_pattern (strip ascii_engine (u "(unclosed")));
                       test_line spinning;
                       test_line (syntax_error Sre.missing_paren);
                       test_line doesnt_compile; separator];
         process := emit [testing_pattern (strip ascii_engine (u "(unclosed"));
                          spinning; syntax_error Sre.missing_paren; doesnt_compile]
                      (process fresh_terminal) |}.
Proof.
  split; [reflexivity|]. split; [reflexivity|].
  apply (session_survives_syntax_error ascii_engine no_lowering
           (u "(unclosed") (u "n") [u "quit"] fresh_terminal Sre.missing_paren);
    reflexivity.
Defined.

Lemma uncaught_exception_ends_session_witness :
  str_eqb (lower no_lowering (strip ascii_engine (u "a{4294967295}"))) (u "quit") = false /\
  re_compile ascii_engine (strip ascii_engine (u "a{4294967295}"))
  = Raise Sre.OverflowError /\
  (forall d, Sre.OverflowError <> Sre.re_error d) /\
  main_loop ascii_engine no_lowering [u "a{4294967295}"; u "n"; u "quit"] fresh_terminal
  = (Raise Sre.OverflowError, [u "quit"],
     {| screen := screen fresh_terminal
                  ++ [ask_pattern; ask_verbose;
                      test_line (testing_pattern (strip ascii_engine (u "a{4294967295}")));
                      test_line spinning];
        process := emit [testing_pattern (strip ascii_engine (u "a{4294967295}"));
                         spinning] (process fresh_terminal) |}).
Proof.
  split; [reflexivity|]. split; [reflexivity|]. split; [discriminate|].
  apply (uncaught_exception_ends_session ascii_engine no_lowering
           (u "a{4294967295}") (u "n") [u "quit"] fresh_terminal Sre.OverflowError).
  - reflexivity.
  - reflexivity.
  - discriminate.
Defined.

Lemma normal_exit_only_by_quit_witness :
  main_loop ascii_engine no_lowering [u "Quit"; u "unread"] fresh_terminal
  = (Return tt, [u "unread"], show farewell (show ask_pattern fresh_terminal)) /\
  exists rounds l pre,
    [u "Quit"; u "unread"] = rounds ++ l :: [u "unread"] /\
    Nat.Even (length rounds) /\
    str_eqb (lower no_lowering (strip ascii_engine l)) (u "quit") = true /\
    screen (show farewell (show ask_pattern fresh_terminal))
    = pre ++ [ask_pattern; farewell].
Proof.
  split; [reflexivity|].
  apply (normal_exit_only_by_quit ascii_engine no_lowering [u "Quit"; u "unread"]
           fresh_terminal [u "unread"] (show farewell (show ask_pattern fresh_terminal))).
  reflexivity.
Defined.

Lemma input_exhausted_raises_EOFError_witness :
  handled_rounds ascii_engine no_lowering [u "(unclosed"; u "n"] /\
  exists t' pre,
    main_loop ascii_engine no_lowering [u "(unclosed"; u "n"] fresh_terminal
    = (Raise EOFError, [], t') /\
    screen t' = pre ++ [ask_pattern].
Proof.
  assert (H : handled_rounds ascii_engine no_lowering [u "(unclosed"; u "n"]).
  { split; [reflexivity|]. split; [|exact I].
    intros e He. vm_compute in He. injection He as <-. eexists. reflexivity. }
  split; [exact H|].
  apply (input_exhausted_raises_EOFError ascii_engine no_lowering
           [u "(unclosed"; u "n"] fresh_terminal H).
Defined.
